(** * Inventory and point-of-sale tracker: persistence and state reconciliation

    A shallow embedding of [src/App.tsx] (the coordinator: React state and its
    handlers) and of the [db] module (IndexedDB object stores, localStorage
    scalars, the local "cloud" snapshot), followed by the properties of the
    specification that concern them.

    Conventions of the model.
    - A JavaScript [number] that carries money is [number]: [NaN] or an exact
      rational.  Rounding of doubles and the infinities are left out.
    - Quantities and epoch-millisecond timestamps are integers ([Z]).
    - An IndexedDB object store with [keyPath: 'id'] is a finite map from the
      id to the record.  [getAll] lists its records; the order of that list is
      the one of [map_to_list], so statements about it are up to permutation.
    - localStorage is a record of the slots the application uses; the text
      stored in a slot is represented by the value it denotes.
    - What the environment decides (whether IndexedDB fails, what [Date.now()]
      reads, what the user answers to [confirm]) is an explicit argument.
    - The text functions of the platform whose result depends on Unicode
      tables ([toLowerCase], [localeCompare]) are parameters. *)

From Stdlib Require Import ZArith QArith Qcanon String Ascii DecimalString DecimalPos.
From Stdlib Require Import Sorting.Sorted.
From stdpp Require Import base numbers list strings gmap.

Local Open Scope Z_scope.
Local Open Scope string_scope.

(** ** JavaScript numbers *)

Inductive number : Type :=
  | NaN
  | Num (x : Qc).

#[global] Instance number_eq_dec : EqDecision number.
Proof. solve_decision. Defined.

Definition isNaN (n : number) : bool :=
  match n with NaN => true | Num _ => false end.

Definition num_add (a b : number) : number :=
  match a, b with
  | Num x, Num y => Num (x + y)%Qc
  | _, _ => NaN
  end.

Definition num_mul (a b : number) : number :=
  match a, b with
  | Num x, Num y => Num (x * y)%Qc
  | _, _ => NaN
  end.

(** [a || b] on numbers: [NaN] and [0] are the falsy ones. *)
Definition falsy (n : number) : bool :=
  match n with NaN => true | Num x => bool_decide (x = 0%Qc) end.

Definition or_else (a b : number) : number := if falsy a then b else a.

Definition of_int (z : Z) : number := Num (Qc_of_Z z).

(** ** Strings *)

(** [n.toString()] for an integer. *)
Definition toString (z : Z) : string := NilZero.string_of_int (Z.to_int z).

(** Lower-casing of the letters A to Z, which is what [s.toLowerCase()] does to
    a text of ASCII characters.  It serves to run the statements on sample
    inputs; the model takes the platform's [toLowerCase] as it is (see
    [Platform] below). *)
Definition lower_ascii (c : ascii) : ascii :=
  let n := N_of_ascii c in
  if ((65 <=? n) && (n <=? 90))%N then ascii_of_N (n + 32) else c.

Fixpoint ascii_toLowerCase (s : string) : string :=
  match s with
  | EmptyString => EmptyString
  | String c s' => String (lower_ascii c) (ascii_toLowerCase s')
  end.

(** [s.split(sep)[0]]: the text before the first separator (all of [s] when
    there is none). *)
Fixpoint split_head (sep : ascii) (s : string) : string :=
  match s with
  | EmptyString => EmptyString
  | String c s' => if Ascii.eqb c sep then EmptyString else String c (split_head sep s')
  end.

Definition is_digit (c : ascii) : bool :=
  let n := N_of_ascii c in ((48 <=? n) && (n <=? 57))%N.

Definition is_dot (c : ascii) : bool := Ascii.eqb c ".".

(** [s.replace(/[^\d.]/g, '')] *)
Fixpoint keep_digits_and_dots (s : string) : string :=
  match s with
  | EmptyString => EmptyString
  | String c s' =>
      if is_digit c || is_dot c then String c (keep_digits_and_dots s')
      else keep_digits_and_dots s'
  end.

(** The longest run of digits at the head of a text, and what follows it. *)
Fixpoint span_digits (s : string) : list ascii * string :=
  match s with
  | String c s' =>
      if is_digit c then let '(ds, r) := span_digits s' in (c :: ds, r)
      else ([], s)
  | EmptyString => ([], EmptyString)
  end.

Definition digit_value (c : ascii) : Z := Z.of_N (N_of_ascii c) - 48.

Definition digits_value (ds : list ascii) : Z :=
  fold_left (fun acc c => 10 * acc + digit_value c) ds 0.

(** [parseFloat] on a text of digits and dots (which is all that
    [keep_digits_and_dots] leaves): the longest prefix of the form
    [digits], [digits.digits*] or [.digits+] is read as a decimal; when there
    is no such prefix the result is [NaN]. *)
Definition parseFloat (s : string) : number :=
  let '(ip, rest) := span_digits s in
  match rest with
  | String c rest' =>
      if is_dot c then
        let '(fp, _) := span_digits rest' in
        match ip, fp with
        | [], [] => NaN
        | _, _ =>
            Num (Qc_of_Z (digits_value ip)
                 + Qc_of_Z (digits_value fp) / Qc_of_Z (10 ^ Z.of_nat (length fp)))%Qc
        end
      else match ip with [] => NaN | _ => Num (Qc_of_Z (digits_value ip)) end
  | EmptyString =>
      match ip with [] => NaN | _ => Num (Qc_of_Z (digits_value ip)) end
  end.

(** ** Data model ([src/types.ts]) *)

Record Category : Type := mkCategory {
  c_id : string;
  c_name : string;
  c_image : string }.

Record Product : Type := mkProduct {
  p_id : string;
  p_name : string;
  price : string;
  quantity : Z;
  categoryId : string;
  barcode : string;
  p_image : string }.

Record SaleRecord : Type := mkSale {
  s_id : string;
  productId : string;
  productName : string;
  productImage : string;
  s_quantity : Z;
  soldAtPrice : Qc;
  timestamp : Z }.

Record User : Type := mkUser {
  email : string;
  u_name : string;
  picture : string }.

#[global] Instance Category_eq_dec : EqDecision Category.
Proof. solve_decision. Defined.
#[global] Instance Product_eq_dec : EqDecision Product.
Proof. solve_decision. Defined.
#[global] Instance SaleRecord_eq_dec : EqDecision SaleRecord.
Proof. solve_decision. Defined.
#[global] Instance User_eq_dec : EqDecision User.
Proof. solve_decision. Defined.

(** The generic bound [T extends { id: string }] of the [db] module. *)
Class HasId (T : Type) : Type := getId : T -> string.
#[global] Instance Category_HasId : HasId Category := c_id.
#[global] Instance Product_HasId : HasId Product := p_id.
#[global] Instance SaleRecord_HasId : HasId SaleRecord := s_id.

(** ** The durable stores *)

(** IndexedDB, version 3: three object stores keyed by [id]. *)
Record IDB : Type := mkIDB {
  os_categories : gmap string Category;
  os_products : gmap string Product;
  os_sales : gmap string SaleRecord }.

(** The store name passed to the [db] functions, with the record type it holds. *)
Record ObjectStore (T : Type) : Type := mkObjectStore {
  os_view : IDB -> gmap string T;
  os_update : (gmap string T -> gmap string T) -> IDB -> IDB }.
Arguments os_view {T} _ _.
Arguments os_update {T} _ _ _.

Definition categories_store : ObjectStore Category :=
  {| os_view := os_categories;
     os_update := fun f db => mkIDB (f (os_categories db)) (os_products db) (os_sales db) |}.

Definition products_store : ObjectStore Product :=
  {| os_view := os_products;
     os_update := fun f db => mkIDB (os_categories db) (f (os_products db)) (os_sales db) |}.

Definition sales_store : ObjectStore SaleRecord :=
  {| os_view := os_sales;
     os_update := fun f db => mkIDB (os_categories db) (os_products db) (f (os_sales db)) |}.

(** JSON has no [NaN]: [JSON.stringify] writes [null] for it. *)
Inductive json_number : Type :=
  | JNull
  | JNum (x : Qc).

Definition to_json (n : number) : json_number :=
  match n with NaN => JNull | Num x => JNum x end.

(** [cloudData.earnings || 0] *)
Definition json_or_zero (j : json_number) : number :=
  match j with JNull => Num 0 | JNum x => Num x end.

(** The payload of [syncToCloud] once serialised. *)
Record Snapshot : Type := mkSnapshot {
  snap_categories : list Category;
  snap_products : list Product;
  snap_sales : option (list SaleRecord);
  snap_earnings : json_number;
  lastUpdated : Z }.

(** localStorage: the slots [NabilInventory_TOTAL_EARNINGS] and
    [NabilInventory_USER], and the entries whose key starts with
    [GLOBAL_CLOUD_DB_] (another prefix, so the three never overlap). *)
Record LocalStorage : Type := mkLocalStorage {
  TOTAL_EARNINGS : option number;
  USER : option User;
  cloud : gmap string Snapshot }.

(** ** In-memory state of the coordinator (the [useState] cells) *)

Record Mem : Type := mkMem {
  categories : list Category;
  products : list Product;
  sales : list SaleRecord;
  totalEarnings : number;
  user : option User;
  isLoading : bool;
  dataLoadedSuccessfully : bool }.

Record World : Type := mkWorld {
  mem : Mem;
  idb : IDB;
  ls : LocalStorage }.

(** ** Promises and exceptions *)

(** How an asynchronous call ends: it resolves, it rejects (an exception for
    the awaiting caller), or its promise never settles. *)
Inductive outcome (A : Type) : Type :=
  | Resolved (a : A)
  | Rejected
  | Pending.
Arguments Resolved {A} a.
Arguments Rejected {A}.
Arguments Pending {A}.

Definition M (A : Type) : Type := World -> outcome A * World.

Definition ret {A} (a : A) : M A := fun w => (Resolved a, w).
Definition throw {A} : M A := fun w => (Rejected, w).
Definition never {A} : M A := fun w => (Pending, w).

Definition bind {A B} (m : M A) (k : A -> M B) : M B :=
  fun w =>
    match m w with
    | (Resolved a, w') => k a w'
    | (Rejected, w') => (Rejected, w')
    | (Pending, w') => (Pending, w')
    end.

Notation "'let*' x := m 'in' k" := (bind m (fun x => k))
  (at level 10, x name, m at level 100, k at level 200).
Notation "m ;; k" := (bind m (fun _ => k))
  (at level 100, k at level 200, right associativity).

(** [try { body } catch (err) { handler }] around awaited code. *)
Definition try_catch {A} (body : M A) (handler : M A) : M A :=
  fun w =>
    match body w with
    | (Rejected, w') => handler w'
    | r => r
    end.

(** [try { ...; return promise } catch (err) { handler }] in an async function:
    the promise is returned, not awaited, so the handler covers what runs
    before the [return] and not the rejection of the promise itself. *)
Definition try_return {A} (body : M (M A)) (handler : M A) : M A :=
  fun w =>
    match body w with
    | (Resolved promise, w') => promise w'
    | (Rejected, w') => handler w'
    | (Pending, w') => (Pending, w')
    end.

Definition exec {A} (m : M A) (w : World) : World := snd (m w).
Definition result {A} (m : M A) (w : World) : outcome A := fst (m w).

Definition get_idb : M IDB := fun w => (Resolved (idb w), w).
Definition set_idb (f : IDB -> IDB) : M unit :=
  fun w => (Resolved tt, mkWorld (mem w) (f (idb w)) (ls w)).
Definition get_ls : M LocalStorage := fun w => (Resolved (ls w), w).
Definition set_ls (f : LocalStorage -> LocalStorage) : M unit :=
  fun w => (Resolved tt, mkWorld (mem w) (idb w) (f (ls w))).
Definition get_mem : M Mem := fun w => (Resolved (mem w), w).
Definition set_mem (f : Mem -> Mem) : M unit :=
  fun w => (Resolved tt, mkWorld (f (mem w)) (idb w) (ls w)).

(** ** What the platform provides *)

Section Platform.

(** [String.prototype.toLowerCase]: the lower-casing of the platform, over
    every cased letter of Unicode.  Nothing is assumed of it. *)
Variable toLowerCase : string -> string.

(** ** The [db] module *)

(** What IndexedDB does to one call: nothing wrong, [indexedDB.open] fails
    (or a call made before the promise is built throws), or a request of the
    transaction fails (its error event fires and the transaction aborts). *)
Inductive fault : Type :=
  | NoFault
  | OpenFault
  | TxFault.

Definition openDB (f : fault) : M unit :=
  match f with OpenFault => throw | _ => ret tt end.

(** The records of a store, as [store.getAll()] lists them. *)
Definition records {T} (m : gmap string T) : list T := (map_to_list m).*2.

(** The promise built around [store.getAll()]. *)
Definition request_getAll {T} (storeName : ObjectStore T) (f : fault) : M (list T) :=
  match f with
  | TxFault => throw
  | _ => let* db := get_idb in ret (records (os_view storeName db))
  end.

Definition getAll {T} (storeName : ObjectStore T) (f : fault) : M (list T) :=
  try_return
    (openDB f ;; ret (request_getAll storeName f))
    (ret []).

(** The promise built around a readwrite transaction: its effect is durable
    when the transaction completes, and absent when it aborts. *)
Definition transaction {T} (storeName : ObjectStore T) (f : fault)
    (change : gmap string T -> gmap string T) : M unit :=
  match f with
  | TxFault => throw
  | _ => set_idb (os_update storeName change)
  end.

Definition saveItem {T} `{HasId T} (storeName : ObjectStore T) (f : fault) (item : T) : M unit :=
  try_return
    (openDB f ;; ret (transaction storeName f (insert (getId item) item)))
    (ret tt).

Definition deleteItem {T} (storeName : ObjectStore T) (f : fault) (id : string) : M unit :=
  try_return
    (openDB f ;; ret (transaction storeName f (delete id)))
    throw.

Definition saveEarnings (amount : number) (l : LocalStorage) : LocalStorage :=
  let safeAmount := if isNaN amount then Num 0 else amount in
  mkLocalStorage (Some safeAmount) (USER l) (cloud l).

Definition getEarnings (l : LocalStorage) : number :=
  match TOTAL_EARNINGS l with
  | None => Num 0
  | Some parsed => if isNaN parsed then Num 0 else parsed
  end.

Record SyncData : Type := mkSyncData {
  d_categories : list Category;
  d_products : list Product;
  d_sales : option (list SaleRecord);
  d_earnings : number }.

Definition cloudKey (email : string) : string :=
  "GLOBAL_CLOUD_DB_" ++ toLowerCase email.

(** [JSON.stringify({ ...data, lastUpdated: Date.now() })] *)
Definition payload (data : SyncData) (now : Z) : Snapshot :=
  mkSnapshot (d_categories data) (d_products data) (d_sales data)
             (to_json (d_earnings data)) now.

Definition syncToCloud (now : Z) (email : string) (data : SyncData) : M unit :=
  set_ls (fun l =>
    mkLocalStorage (TOTAL_EARNINGS l) (USER l)
                   (<[cloudKey email := payload data now]> (cloud l))).

Definition fetchFromCloud (email : string) : M (option Snapshot) :=
  let* l := get_ls in ret (cloud l !! cloudKey email).

Definition saveUser (u : User) (l : LocalStorage) : LocalStorage :=
  mkLocalStorage (TOTAL_EARNINGS l) (Some u) (cloud l).

Definition getUser (l : LocalStorage) : option User := USER l.

Definition logout (l : LocalStorage) : LocalStorage :=
  mkLocalStorage (TOTAL_EARNINGS l) None (cloud l).

(** [items.forEach(x => store.put(x))]: a later record replaces an earlier
    one with the same id. *)
Definition put_all {T} `{HasId T} (items : list T) (m : gmap string T) : gmap string T :=
  fold_left (fun acc x => <[getId x := x]> acc) items m.

(** What IndexedDB does to [overwriteLocalData], which has no handler of its
    own: the open fails, one of the [clear()] requests fails (its [onsuccess]
    never fires), or a later request fails and the transaction aborts (its
    [oncomplete] never fires). *)
Inductive overwrite_fault : Type :=
  | OwNone
  | OwOpen
  | OwClear
  | OwAbort.

Definition overwriteLocalData (f : overwrite_fault)
    (cats : list Category) (prods : list Product) (earnings : number)
    (sls : list SaleRecord) : M unit :=
  (match f with OwOpen => throw | _ => ret tt end) ;;
  let* before := get_idb in
  (match f with
   | OwClear => never
   | _ => set_idb (os_update categories_store (fun _ => ∅)) ;;
          set_idb (os_update products_store (fun _ => ∅)) ;;
          set_idb (os_update sales_store (fun _ => ∅))
   end) ;;
  set_idb (os_update categories_store (put_all cats)) ;;
  set_idb (os_update products_store (put_all prods)) ;;
  set_idb (os_update sales_store (put_all sls)) ;;
  set_ls (saveEarnings earnings) ;;
  match f with
  | OwAbort => set_idb (fun _ => before) ;; never
  | _ => ret tt
  end.

(** ** The coordinator ([src/App.tsx]) *)

Definition setCategories (v : list Category) (m : Mem) : Mem :=
  mkMem v (products m) (sales m) (totalEarnings m) (user m) (isLoading m)
        (dataLoadedSuccessfully m).
Definition setProducts (v : list Product) (m : Mem) : Mem :=
  mkMem (categories m) v (sales m) (totalEarnings m) (user m) (isLoading m)
        (dataLoadedSuccessfully m).
Definition setSales (v : list SaleRecord) (m : Mem) : Mem :=
  mkMem (categories m) (products m) v (totalEarnings m) (user m) (isLoading m)
        (dataLoadedSuccessfully m).
Definition setTotalEarnings (v : number) (m : Mem) : Mem :=
  mkMem (categories m) (products m) (sales m) v (user m) (isLoading m)
        (dataLoadedSuccessfully m).
Definition setUser (v : option User) (m : Mem) : Mem :=
  mkMem (categories m) (products m) (sales m) (totalEarnings m) v (isLoading m)
        (dataLoadedSuccessfully m).
Definition setIsLoading (v : bool) (m : Mem) : Mem :=
  mkMem (categories m) (products m) (sales m) (totalEarnings m) (user m) v
        (dataLoadedSuccessfully m).
Definition setDataLoadedSuccessfully (v : bool) (m : Mem) : Mem :=
  mkMem (categories m) (products m) (sales m) (totalEarnings m) (user m)
        (isLoading m) v.

(** The state on the first render. *)
Definition initialMem : Mem := mkMem [] [] [] (Num 0) None true false.

(** [list.sort((a, b) => b.timestamp - a.timestamp)]: most recent first, and
    stable. *)
Fixpoint insert_by_timestamp (s : SaleRecord) (l : list SaleRecord) : list SaleRecord :=
  match l with
  | [] => [s]
  | x :: l' =>
      if bool_decide (timestamp x <= timestamp s) then s :: l
      else x :: insert_by_timestamp s l'
  end.

Definition sort_by_timestamp_desc (l : list SaleRecord) : list SaleRecord :=
  foldr insert_by_timestamp [] l.

Definition has_id {T} `{HasId T} (id : string) (x : T) : bool :=
  bool_decide (getId x = id).

Definition loadData (fc fp fs : fault) : M unit :=
  set_mem (setIsLoading true) ;;
  try_catch
    (let* cats := getAll categories_store fc in
     let* prods := getAll products_store fp in
     let* salesLog := getAll sales_store fs in
     let* l := get_ls in
     let earnings := getEarnings l in
     set_mem (setCategories cats) ;;
     set_mem (setProducts prods) ;;
     set_mem (setSales (sort_by_timestamp_desc salesLog)) ;;
     set_mem (setTotalEarnings (or_else earnings (Num 0))) ;;
     set_mem (setDataLoadedSuccessfully true))
    (ret tt) ;;
  set_mem (setIsLoading false).

Definition totalInventoryValue (prods : list Product) : number :=
  fold_left
    (fun sum prod =>
       let retailPriceStr := split_head "/" (price prod) in
       let cleanedPrice := keep_digits_and_dots retailPriceStr in
       let price := or_else (parseFloat cleanedPrice) (Num 0) in
       num_add sum (num_mul price (of_int (quantity prod))))
    prods (Num 0).

(** [prev.find(..) ? prev.map(p => p.id === x.id ? x : p) : [...prev, x]] *)
Definition upsert {T} `{HasId T} (x : T) (prev : list T) : list T :=
  match find (has_id (getId x)) prev with
  | Some _ => map (fun p => if has_id (getId x) p then x else p) prev
  | None => prev ++ [x]
  end.

Definition handleAddCategory (f : fault) (cat : Category) : M unit :=
  saveItem categories_store f cat ;;
  set_mem (fun m => setCategories (upsert cat (categories m)) m).

Definition handleAddProduct (f : fault) (prod : Product) : M unit :=
  saveItem products_store f prod ;;
  set_mem (fun m => setProducts (upsert prod (products m)) m).

(** The [try] block of [handleSale]. *)
Definition sale_attempt (f_sale f_prod : fault) (now_id now_ts : Z)
    (productId : string) (quantityToSell : Z) (soldAtPrice : Qc) : M unit :=
  let* state := get_mem in
  match find (has_id productId) (products state) with
  | None => ret tt
  | Some product =>
      let saleRecord :=
        {| s_id := toString now_id;
           productId := p_id product;
           productName := p_name product;
           productImage := p_image product;
           s_quantity := quantityToSell;
           soldAtPrice := soldAtPrice;
           timestamp := now_ts |} in
      saveItem sales_store f_sale saleRecord ;;
      let saleAmount := num_mul (Num soldAtPrice) (of_int quantityToSell) in
      let currentEarnings :=
        if isNaN (totalEarnings state) then Num 0 else totalEarnings state in
      let newTotalEarnings := num_add currentEarnings saleAmount in
      set_ls (saveEarnings newTotalEarnings) ;;
      set_mem (setTotalEarnings newTotalEarnings) ;;
      set_mem (fun m => setSales (saleRecord :: sales m) m) ;;
      let newQuantity := quantity product - quantityToSell in
      if bool_decide (newQuantity <= 0) then
        deleteItem products_store f_prod (p_id product) ;;
        set_mem (fun m =>
          setProducts (filter (fun p => p_id p ≠ p_id product) (products m)) m)
      else
        let updatedProduct :=
          {| p_id := p_id product; p_name := p_name product;
             price := price product; quantity := newQuantity;
             categoryId := categoryId product; barcode := barcode product;
             p_image := p_image product |} in
        saveItem products_store f_prod updatedProduct ;;
        set_mem (fun m =>
          setProducts
            (map (fun p => if bool_decide (p_id p = p_id product)
                           then updatedProduct else p) (products m)) m)
  end.

(** [handleSale]: the attempt, with its [catch] (a log line and an alert).
    The sale dialog hands over the quantity as an integer and the unit price
    as a finite number. *)
Definition handleSale (f_sale f_prod : fault) (now_id now_ts : Z)
    (productId : string) (quantityToSell : Z) (soldAtPrice : Qc) : M unit :=
  try_catch
    (sale_attempt f_sale f_prod now_id now_ts productId quantityToSell soldAtPrice)
    (ret tt).

Definition handleDeleteProduct (confirmed : bool) (f : fault) (id : string) : M unit :=
  if confirmed then
    try_catch
      (deleteItem products_store f id ;;
       set_mem (fun m => setProducts (filter (fun p => p_id p ≠ id) (products m)) m))
      (ret tt)
  else ret tt.

Definition handleLogin (confirmed : bool) (fo : overwrite_fault) (fc fp fs : fault)
    (newUser : User) : M unit :=
  set_mem (setUser (Some newUser)) ;;
  set_ls (saveUser newUser) ;;
  let* cloudData := fetchFromCloud (email newUser) in
  match cloudData with
  | Some cd =>
      if confirmed then
        overwriteLocalData fo (snap_categories cd) (snap_products cd)
          (json_or_zero (snap_earnings cd)) (default [] (snap_sales cd)) ;;
        loadData fc fp fs
      else ret tt
  | None => ret tt
  end.

Definition handleLogout : M unit :=
  set_ls logout ;;
  set_mem (setUser None).

Definition handleManualSync (now : Z) : M unit :=
  let* state := get_mem in
  match user state with
  | None => ret tt
  | Some u =>
      try_catch
        (syncToCloud now (email u)
           {| d_categories := categories state; d_products := products state;
              d_earnings := totalEarnings state; d_sales := Some (sales state) |})
        (ret tt)
  end.

(** The parsed import file: any of its fields may be missing. *)
Record ImportData : Type := mkImportData {
  i_categories : option (list Category);
  i_products : option (list Product);
  i_sales : option (list SaleRecord);
  i_earnings : option Qc;
  i_totalEarnings : option Qc }.

(** [a || b] where [a] may be missing. *)
Definition field_or (a : option Qc) (b : Qc) : Qc :=
  match a with
  | Some x => if bool_decide (x = 0%Qc) then b else x
  | None => b
  end.

Definition handleImport (confirmed : bool) (fo : overwrite_fault) (data : ImportData) : M unit :=
  if confirmed then
    let newCategories := default [] (i_categories data) in
    let newProducts := default [] (i_products data) in
    let newSales := default [] (i_sales data) in
    let newEarnings := Num (field_or (i_earnings data) (field_or (i_totalEarnings data) 0%Qc)) in
    overwriteLocalData fo newCategories newProducts newEarnings newSales ;;
    set_mem (setCategories newCategories) ;;
    set_mem (setProducts newProducts) ;;
    set_mem (setSales newSales) ;;
    set_mem (setTotalEarnings newEarnings)
  else ret tt.

(** A promise that is started and not awaited: its effects happen, its
    outcome is dropped. *)
Definition detached {A} (m : M A) : M unit :=
  fun w => (Resolved tt, snd (m w)).

Definition resetEarnings (confirmed : bool) (fo : overwrite_fault) : M unit :=
  let* state := get_mem in
  if confirmed then
    set_mem (setTotalEarnings (Num 0)) ;;
    set_mem (setSales []) ;;
    set_ls (saveEarnings (Num 0)) ;;
    detached (overwriteLocalData fo (categories state) (products state) (Num 0) [])
  else ret tt.

(** ** Runs of sales *)

(** One call of [handleSale] with what the environment does during it: the
    faults of its two store writes and the two readings of [Date.now()]. *)
Record SaleCall : Type := mkSaleCall {
  sc_f_sale : fault;
  sc_f_prod : fault;
  sc_now_id : Z;
  sc_now_ts : Z;
  sc_productId : string;
  sc_quantity : Z;
  sc_price : Qc }.

Definition recordSale (c : SaleCall) (w : World) : World :=
  exec (handleSale (sc_f_sale c) (sc_f_prod c) (sc_now_id c) (sc_now_ts c)
          (sc_productId c) (sc_quantity c) (sc_price c)) w.

Definition recordSales (calls : list SaleCall) (w : World) : World :=
  fold_left (fun acc c => recordSale c acc) calls w.

Definition lookup_product (id : string) (w : World) : option Product :=
  find (has_id id) (products (mem w)).

(** A sale succeeds when its product is in memory and the [try] block runs to
    its end without an exception. *)
Definition sale_succeeds (c : SaleCall) (w : World) : bool :=
  match lookup_product (sc_productId c) w,
        result (sale_attempt (sc_f_sale c) (sc_f_prod c) (sc_now_id c) (sc_now_ts c)
                  (sc_productId c) (sc_quantity c) (sc_price c)) w with
  | Some _, Resolved _ => true
  | _, _ => false
  end.

Fixpoint all_succeed (calls : list SaleCall) (w : World) : bool :=
  match calls with
  | [] => true
  | c :: rest => sale_succeeds c w && all_succeed rest (recordSale c w)
  end.

Definition sale_amount (c : SaleCall) : Qc := (sc_price c * Qc_of_Z (sc_quantity c))%Qc.

Definition calls_total (calls : list SaleCall) : Qc :=
  foldr (fun c acc => (sale_amount c + acc)%Qc) 0%Qc calls.

Definition log_total (log : list SaleRecord) : Qc :=
  foldr (fun s acc => (soldAtPrice s * Qc_of_Z (s_quantity s) + acc)%Qc) 0%Qc log.

Definition quantities_nonneg (prods : list Product) : Prop :=
  Forall (fun p => 0 <= quantity p) prods.

(** The earnings a sale starts from: [isNaN(totalEarnings) ? 0 : totalEarnings]. *)
Definition current_earnings (w : World) : Qc :=
  match totalEarnings (mem w) with NaN => 0%Qc | Num x => x end.

(** The product as [handleSale] writes it back. *)
Definition with_quantity (p : Product) (q : Z) : Product :=
  {| p_id := p_id p; p_name := p_name p; price := price p; quantity := q;
     categoryId := categoryId p; barcode := barcode p; p_image := p_image p |}.

(** The record a sale of [product] writes. *)
Definition new_sale (c : SaleCall) (product : Product) : SaleRecord :=
  {| s_id := toString (sc_now_id c);
     productId := p_id product;
     productName := p_name product;
     productImage := p_image product;
     s_quantity := sc_quantity c;
     soldAtPrice := sc_price c;
     timestamp := sc_now_ts c |}.

Definition fault_free (c : SaleCall) : Prop :=
  sc_f_sale c = NoFault /\ sc_f_prod c = NoFault.

(** ** Sample data *)

Definition widget : Product := mkProduct "p1" "Widget" "100/80" 5 "c1" "111" "".

Definition emptyWorld : World :=
  mkWorld (mkMem [] [] [] (Num 0) None false true)
          (mkIDB ∅ ∅ ∅) (mkLocalStorage None None ∅).

Definition shop : World := exec (handleAddProduct NoFault widget) emptyWorld.

Definition sale (now : Z) (id : string) (q : Z) (unit_price : Z) : SaleCall :=
  mkSaleCall NoFault NoFault now now id q (Qc_of_Z unit_price).

(** ** Notions used by the statements *)

(** A record with the key it is stored under. *)
Definition keyed {T} `{HasId T} (x : T) : string * T := (getId x, x).

(** Every record sits under its own id, as [keyPath: 'id'] makes it. *)
Definition well_keyed {T} `{HasId T} (m : gmap string T) : Prop :=
  forall k x, m !! k = Some x -> getId x = k.

(** The state a load that meets no fault leaves. *)
Definition loaded (w : World) : World :=
  mkWorld
    (mkMem (records (os_categories (idb w)))
           (records (os_products (idb w)))
           (sort_by_timestamp_desc (records (os_sales (idb w))))
           (or_else (getEarnings (ls w)) (Num 0))
           (user (mem w)) false true)
    (idb w) (ls w).

(** The state an overwrite that meets no fault leaves. *)
Definition overwritten (cats : list Category) (prods : list Product)
    (earnings : number) (sls : list SaleRecord) (w : World) : World :=
  mkWorld (mem w)
          (mkIDB (put_all cats ∅) (put_all prods ∅) (put_all sls ∅))
          (saveEarnings earnings (ls w)).

(** Memory and the stores hold the same categories and products: writing the
    in-memory collections to an empty store gives the store.  A load
    establishes this and the fault-free operations keep it. *)
Definition coherent (w : World) : Prop :=
  os_categories (idb w) = put_all (categories (mem w)) ∅ /\
  os_products (idb w) = put_all (products (mem w)) ∅.

(** The price [totalInventoryValue] reads from a product, step by step as the
    code computes it, and the total in closed form. *)
Definition retail_text (p : Product) : string :=
  keep_digits_and_dots (split_head "/" (price p)).

Definition parsed_retail_price (p : Product) : Qc :=
  match parseFloat (retail_text p) with
  | NaN => 0%Qc
  | Num x => x
  end.

Fixpoint inventory_sum (prods : list Product) : Qc :=
  match prods with
  | [] => 0%Qc
  | p :: rest => (parsed_retail_price p * Qc_of_Z (quantity p) + inventory_sum rest)%Qc
  end.

(** *** The inventory value in the words of the specification

    These definitions follow the specification and use none of the functions
    above: the retail price is the part of the price text before the first
    ['/'], it is read as a decimal number, and the value is the sum of price
    times quantity. *)

(** The part of a text before its first ['/']; all of it when it has none. *)
Definition spec_retail_part (s : string) : string :=
  match index 0 "/" s with
  | Some n => substring 0 n s
  | None => s
  end.

(** The characters a number is written with. *)
Definition price_characters : list ascii := list_ascii_of_string "0123456789.".

Definition digits_and_dots (s : string) : list ascii :=
  List.filter (fun c => bool_decide (c ∈ price_characters)) (list_ascii_of_string s).

(** What stands before the first dot, and what stands after it. *)
Fixpoint up_to_dot (l : list ascii) : list ascii :=
  match l with
  | [] => []
  | c :: r => if Ascii.eqb c "." then [] else c :: up_to_dot r
  end.

Fixpoint after_dot (l : list ascii) : list ascii :=
  match l with
  | [] => []
  | c :: r => if Ascii.eqb c "." then r else after_dot r
  end.

(** The digit a character writes: its place in the row of the ten digits. *)
Definition decimal_digit (c : ascii) : Z :=
  match index 0 (String c EmptyString) "0123456789" with
  | Some n => Z.of_nat n
  | None => 0
  end.

(** The value of digits by their place: a digit with [k] digits to its right
    counts [10^k] times, the [k]-th digit after the dot a [10^k]-th. *)
Fixpoint whole_value (ds : list ascii) : Z :=
  match ds with
  | [] => 0
  | d :: r => decimal_digit d * 10 ^ Z.of_nat (length r) + whole_value r
  end.

Fixpoint fraction_value (ds : list ascii) : Qc :=
  match ds with
  | [] => 0%Qc
  | d :: r => ((Qc_of_Z (decimal_digit d) + fraction_value r) / Qc_of_Z 10)%Qc
  end.

(** The decimal number written by the digits and dots of a text: the digits
    before the first dot, and after it those up to the second.  With no digit
    in either place the text is unreadable, and counts for 0. *)
Definition spec_parsed_price (s : string) : Qc :=
  let l := digits_and_dots s in
  (Qc_of_Z (whole_value (up_to_dot l)) + fraction_value (up_to_dot (after_dot l)))%Qc.

Definition spec_unreadable (s : string) : Prop :=
  let l := digits_and_dots s in
  up_to_dot l = [] /\ up_to_dot (after_dot l) = [].

(** The sum over the products, in their order, of price times quantity. *)
Definition spec_totalInventoryValue (prods : list Product) : Qc :=
  fold_left Qcplus
    (map (fun p => (spec_parsed_price (spec_retail_part (price p)) * Qc_of_Z (quantity p))%Qc)
         prods)
    0%Qc.

(** Two products for the statements on prices. *)
Definition bolt : Product := mkProduct "p2" "Bolt" "1,250.50 DA/1,000" 2 "c1" "222" "".
Definition unpriced : Product := mkProduct "p3" "Nut" "n/a" 4 "c1" "333" "".

(** ** More sample data *)

Definition first_sale : SaleRecord :=
  mkSale "1000" "p1" "Widget" "" 2 (Qc_of_Z 100) 1000.
Definition second_sale : SaleRecord :=
  mkSale "2000" "p1" "Widget" "" 3 (Qc_of_Z 100) 2000.
Definition tools : Category := mkCategory "c1" "Tools" "".

Definition owner : User := mkUser "Shop@Mail.com" "Nabil" "".

Definition signed_in (w : World) : World :=
  mkWorld (setUser (Some owner) (mem w)) (idb w) (ls w).

Definition backup : ImportData :=
  {| i_categories := Some [tools];
     i_products := Some [widget];
     i_sales := Some [first_sale; second_sale];
     i_earnings := Some (Qc_of_Z 500);
     i_totalEarnings := None |}.

Definition backup_in_cloud : World :=
  exec (syncToCloud 0 (email owner)
          {| d_categories := [tools]; d_products := [widget];
             d_sales := Some [first_sale; second_sale];
             d_earnings := Num (Qc_of_Z 500) |})
       emptyWorld.

Definition doubled : ImportData :=
  {| i_categories := None;
     i_products := Some [widget; with_quantity widget 9];
     i_sales := None;
     i_earnings := None;
     i_totalEarnings := None |}.

(** The shop after two sales rung up within the same millisecond. *)
Definition same_millisecond : World :=
  recordSale (sale 1700000000123 "p1" 2 90)
    (recordSale (sale 1700000000123 "p1" 1 100) shop).

(** ** The rest of the coordinator *)

Inductive ViewState : Type :=
  | HOME
  | CATEGORY_DETAIL
  | SEARCH
  | ADD_PRODUCT
  | ADD_CATEGORY
  | SALE
  | SALES_LOG.

#[global] Instance ViewState_eq_dec : EqDecision ViewState.
Proof. solve_decision. Defined.

(** The navigation cells: [view], [selectedCategoryId], [searchQuery]. *)
Record Nav : Type := mkNav {
  view : ViewState;
  selectedCategoryId : option string;
  searchQuery : string }.

(** What [JSON.parse] gives back for the [APP_STATE] slot: any field may be
    missing or null. *)
Record SavedState : Type := mkSavedState {
  saved_view : option ViewState;
  saved_selectedCategoryId : option string;
  saved_searchQuery : option string }.

(** The coordinator with its navigation cells and the [NabilInventory_APP_STATE]
    slot of localStorage. *)
Record App : Type := mkApp {
  world : World;
  nav : Nav;
  APP_STATE : option SavedState }.

Definition saveAppState (state : Nav) (a : App) : App :=
  mkApp (world a) (nav a)
        (Some (mkSavedState (Some (view state)) (selectedCategoryId state)
                            (Some (searchQuery state)))).

Definition getAppState (a : App) : option SavedState := APP_STATE a.

(** [s || null] on a text that may be missing. *)
Definition text_or_null (s : option string) : option string :=
  match s with
  | Some EmptyString => None
  | other => other
  end.

(** The [init] effect: load, then take the saved user and the saved
    navigation state when there are any. *)
Definition init (fc fp fs : fault) (a : App) : App :=
  let w1 := exec (loadData fc fp fs) (world a) in
  let w2 :=
    match getUser (ls w1) with
    | Some savedUser => exec (set_mem (setUser (Some savedUser))) w1
    | None => w1
    end in
  match getAppState a with
  | Some savedState =>
      match saved_view savedState with
      | Some v =>
          mkApp w2
                (mkNav v (text_or_null (saved_selectedCategoryId savedState))
                       (default "" (saved_searchQuery savedState)))
                (APP_STATE a)
      | None => mkApp w2 (nav a) (APP_STATE a)
      end
  | None => mkApp w2 (nav a) (APP_STATE a)
  end.

(** The effect that keeps the navigation state in localStorage. *)
Definition persistNav (a : App) : App :=
  if dataLoadedSuccessfully (mem (world a)) then saveAppState (nav a) a else a.

(** A page load: the [useState] cells start afresh, the stores are kept. *)
Definition restart (w : World) : World := mkWorld initialMem (idb w) (ls w).

(** The shop after a page load whose reads could not open the store. *)
Definition unread : World :=
  exec (loadData OpenFault OpenFault OpenFault) (restart shop).

(** The automatic sync.  Its timer is armed on a render and cancelled by the
    next one, so when it fires the state is the one it was armed in; this is
    what then runs. *)
Definition autoSync (now : Z) : M unit :=
  let* state := get_mem in
  match user state with
  | Some u =>
      if negb (isLoading state) && dataLoadedSuccessfully state then
        try_catch
          (syncToCloud now (email u)
             {| d_categories := categories state; d_products := products state;
                d_earnings := totalEarnings state; d_sales := Some (sales state) |})
          (ret tt)
      else ret tt
  | None => ret tt
  end.

(** [hay.includes(needle)] *)
Fixpoint includes (hay needle : string) : bool :=
  String.prefix needle hay ||
  match hay with
  | EmptyString => false
  | String _ rest => includes rest needle
  end.

Inductive SortOrder : Type := ASC | DESC.

Section FilteredProducts.
(** [a.localeCompare(b)]: negative, zero or positive; the collation is the
    browser's. *)
Variable localeCompare : string -> string -> Z.

Definition compare_names (sortOrder : SortOrder) (a b : Product) : Z :=
  match sortOrder with
  | ASC => localeCompare (p_name a) (p_name b)
  | DESC => localeCompare (p_name b) (p_name a)
  end.

(** [[...list].sort(cmp)], a stable sort. *)
Fixpoint insert_sorted (cmp : Product -> Product -> Z) (x : Product) (l : list Product)
    : list Product :=
  match l with
  | [] => [x]
  | y :: l' => if bool_decide (cmp x y <= 0) then x :: l else y :: insert_sorted cmp x l'
  end.

Definition sort_products (cmp : Product -> Product -> Z) (l : list Product) : list Product :=
  foldr (insert_sorted cmp) [] l.

Definition in_category (selected : string) (p : Product) : bool :=
  bool_decide (categoryId p = selected).

Definition matches (query : string) (p : Product) : bool :=
  includes (toLowerCase (p_name p)) query || includes (toLowerCase (barcode p)) query.

Definition filteredProducts (prods : list Product) (n : Nav) (sortOrder : SortOrder)
    : list Product :=
  let list1 :=
    match view n, text_or_null (selectedCategoryId n) with
    | CATEGORY_DETAIL, Some selected => List.filter (in_category selected) prods
    | _, _ => prods
    end in
  let list2 :=
    match searchQuery n with
    | EmptyString => list1
    | _ => let query := toLowerCase (searchQuery n) in List.filter (matches query) list1
    end in
  sort_products (compare_names sortOrder) list2.
End FilteredProducts.

(** The [onupgradeneeded] handler of [openDB], on the object stores of the
    database by name: each of the three stores is created when it is missing. *)
Definition create_if_missing {S : Type} (empty_store : S) (name : string)
    (stores : gmap string S) : gmap string S :=
  match stores !! name with
  | Some _ => stores
  | None => <[name := empty_store]> stores
  end.

Definition onupgradeneeded {S : Type} (empty_store : S) (stores : gmap string S)
    : gmap string S :=
  create_if_missing empty_store "sales"
    (create_if_missing empty_store "products"
       (create_if_missing empty_store "categories" stores)).

(** ** Notions used by the further statements *)

(** The last record of a list with a given id. *)
Definition last_with_id {T} `{HasId T} (id : string) (l : list T) : option T :=
  find (has_id id) (rev l).

Definition ids_unique (w : World) : Prop :=
  NoDup (c_id <$> categories (mem w)) /\ NoDup (p_id <$> products (mem w)).

Definition stores_well_keyed (db : IDB) : Prop :=
  well_keyed (os_categories db) /\ well_keyed (os_products db) /\
  well_keyed (os_sales db).

(** A list in memory mirrors a store: the store keeps every record under the
    record's id, and the list holds the records of the store, each once. *)
Definition mirrors {T} `{HasId T} (l : list T) (m : gmap string T) : Prop :=
  well_keyed m /\ l ≡ₚ records m.

(** Memory and the stores agree on the categories and the products. *)
Definition agree (w : World) : Prop :=
  mirrors (categories (mem w)) (os_categories (idb w)) /\
  mirrors (products (mem w)) (os_products (idb w)).

(** Most recent first. *)
Definition newest_first (log : list SaleRecord) : Prop :=
  StronglySorted (fun a b => timestamp b <= timestamp a) log.

(** What one [getAll] of a load contributes: nothing if the store could not
    be opened. *)
Definition read_or_empty {T} (f : fault) (l : list T) : list T :=
  match f with OpenFault => [] | _ => l end.


(** [needle] occurs in [hay]. *)
Definition occurs_in (needle hay : string) : Prop :=
  exists pre post : string, hay = pre ++ needle ++ post.

(** What [filteredProducts] keeps of a product list, before sorting. *)
Definition shown (n : Nav) (p : Product) : Prop :=
  (view n = CATEGORY_DETAIL ->
   forall selected, selectedCategoryId n = Some selected -> selected ≠ "" ->
                    categoryId p = selected) /\
  (searchQuery n ≠ "" ->
   occurs_in (toLowerCase (searchQuery n)) (toLowerCase (p_name p)) \/
   occurs_in (toLowerCase (searchQuery n)) (toLowerCase (barcode p))).

(** A push of an empty state. *)
Definition empty_push : SyncData := mkSyncData [] [] None (Num 0).

(** A restore bundle with none of the expected fields. *)
Definition empty_file : ImportData := mkImportData None None None None None.

(** * Properties *)

(** ** Sales *)

Lemma find_has_id {T} `{HasId T} (id : string) (l : list T) (x : T) :
  find (has_id id) l = Some x -> getId x = id /\ x ∈ l.
Proof.
  intros Hf. apply find_some in Hf as [Hin Hid].
  unfold has_id in Hid. apply bool_decide_eq_true in Hid.
  split; [done | by apply list_elem_of_In].
Qed.

Lemma handleSale_unknown f1 f2 n1 n2 id q pr w :
  lookup_product id w = None ->
  handleSale f1 f2 n1 n2 id q pr w = (Resolved tt, w).
Proof.
  unfold lookup_product, handleSale, sale_attempt, try_catch, bind, get_mem.
  intros Hf. simpl. by rewrite Hf.
Qed.

Lemma recordSale_skips_unknown (c : SaleCall) (w : World) :
  lookup_product (sc_productId c) w = None -> recordSale c w = w.
Proof.
  intros Hf. unfold recordSale, exec. by rewrite handleSale_unknown.
Qed.

(** C1 (as amended): a sale of a product that is not in the in-memory collection
    changes nothing, whatever the quantity, the price and the behaviour of the
    stores: no sale record, same earnings, same products, in memory and in the
    stores. *)
Theorem recordSale_unknown_product_noop (c : SaleCall) (w : World) :
  lookup_product (sc_productId c) w = None -> recordSale c w = w.
Proof. apply recordSale_skips_unknown. Qed.

Lemma recordSale_unknown_product_noop_witness :
  lookup_product "p2" shop = None /\ recordSale (sale 1000 "p2" 1 100) shop = shop.
Proof.
  split; [reflexivity | apply recordSale_unknown_product_noop; reflexivity].
Defined.

(** C1 (as stated) fails: [handleSale] does not look at the sign of the
    quantity.  Selling 0 units of a product in stock writes a sale record. *)
Lemma recordSale_zero_quantity_not_noop :
  ~ (forall (c : SaleCall) (w : World),
       sc_quantity c <= 0 \/ lookup_product (sc_productId c) w = None ->
       recordSale c w = w).
Proof.
  intros Hnoop.
  specialize (Hnoop (sale 1000 "p1" 0 100) shop).
  assert (Hq : sc_quantity (sale 1000 "p1" 0 100) <= 0) by (simpl; lia).
  specialize (Hnoop (or_introl Hq)).
  apply (f_equal (fun w => length (sales (mem w)))) in Hnoop.
  vm_compute in Hnoop. discriminate.
Qed.

(** What the two kinds of non-positive quantity do to a product in stock. *)
Example recordSale_zero_quantity :
  let w := recordSale (sale 1000 "p1" 0 100) shop in
  length (sales (mem w)) = 1%nat /\ size (os_sales (idb w)) = 1%nat /\
  totalEarnings (mem w) = Num 0.
Proof. vm_compute. repeat split; f_equal; by apply Qc_is_canon. Qed.

Example recordSale_negative_quantity :
  let w := recordSale (sale 1000 "p1" (-1) 100) shop in
  length (sales (mem w)) = 1%nat /\
  totalEarnings (mem w) = Num (Qc_of_Z (-100)) /\
  quantity <$> lookup_product "p1" w = Some 6.
Proof. vm_compute. repeat split; f_equal; by apply Qc_is_canon. Qed.

Ltac run_sale Hf :=
  unfold recordSale, exec, handleSale, sale_attempt, try_catch, bind, get_mem,
    lookup_product in *;
  simpl in *; rewrite Hf in *; simpl in *.

(** The whole effect of a sale that meets no fault. *)
Lemma recordSale_fault_free (c : SaleCall) (w : World) (product : Product) :
  fault_free c ->
  lookup_product (sc_productId c) w = Some product ->
  recordSale c w =
    let earnings := Num (current_earnings w + sale_amount c) in
    let left := quantity product - sc_quantity c in
    let sold_out := bool_decide (left <= 0) in
    mkWorld
      (setProducts
         (if sold_out
          then filter (fun p => p_id p ≠ p_id product) (products (mem w))
          else map (fun p => if bool_decide (p_id p = p_id product)
                             then with_quantity product left else p)
                   (products (mem w)))
         (setSales (new_sale c product :: sales (mem w))
            (setTotalEarnings earnings (mem w))))
      (mkIDB (os_categories (idb w))
         (if sold_out
          then delete (p_id product) (os_products (idb w))
          else <[p_id product := with_quantity product left]> (os_products (idb w)))
         (<[toString (sc_now_id c) := new_sale c product]> (os_sales (idb w))))
      (saveEarnings earnings (ls w)).
Proof.
  intros [Hs Hp] Hf. destruct c as [f1 f2 n1 n2 id q pr]. simpl in Hs, Hp. subst.
  unfold current_earnings, sale_amount, with_quantity, new_sale.
  run_sale Hf.
  destruct (totalEarnings (mem w)); simpl; case_bool_decide; reflexivity.
Qed.

(** In memory the products after a sale are the old ones, or the old ones
    without the sold product, or the old ones with its quantity lowered to a
    positive value; this holds whatever the stores do. *)
Lemma recordSale_products (c : SaleCall) (w : World) (product : Product) :
  lookup_product (sc_productId c) w = Some product ->
  let left := quantity product - sc_quantity c in
  let prods := products (mem w) in
  let prods' := products (mem (recordSale c w)) in
  prods' = prods \/
  prods' = filter (fun p => p_id p ≠ p_id product) prods \/
  (0 < left /\
   prods' = map (fun p => if bool_decide (p_id p = p_id product)
                          then with_quantity product left else p) prods).
Proof.
  intros Hf. destruct c as [f1 f2 n1 n2 id q pr]. unfold with_quantity.
  run_sale Hf.
  destruct f1, f2; simpl; try case_bool_decide; simpl; auto;
    right; right; (split; [lia | reflexivity]).
Qed.

Lemma sale_succeeds_inv (c : SaleCall) (w : World) :
  sale_succeeds c w = true ->
  exists product,
    lookup_product (sc_productId c) w = Some product /\ sc_f_sale c ≠ TxFault.
Proof.
  unfold sale_succeeds. destruct (lookup_product _ w) as [product|] eqn:Hf; [|done].
  intros Hok. exists product. split; [done|]. intros Htx.
  destruct c as [f1 f2 n1 n2 id q pr]. simpl in *. subst f1.
  unfold result, sale_attempt, bind, get_mem, lookup_product in *.
  simpl in *. rewrite Hf in Hok. simpl in Hok. done.
Qed.

(** Once the sale record is written the earnings are updated, in memory and in
    the scalar store, whatever happens to the product update afterwards. *)
Lemma recordSale_earnings (c : SaleCall) (w : World) (product : Product) :
  lookup_product (sc_productId c) w = Some product ->
  sc_f_sale c ≠ TxFault ->
  totalEarnings (mem (recordSale c w)) = Num (current_earnings w + sale_amount c) /\
  TOTAL_EARNINGS (ls (recordSale c w)) = Some (Num (current_earnings w + sale_amount c)) /\
  sales (mem (recordSale c w)) = new_sale c product :: sales (mem w).
Proof.
  intros Hf Hs. destruct c as [f1 f2 n1 n2 id q pr].
  unfold current_earnings, sale_amount, new_sale. simpl in Hs.
  run_sale Hf.
  destruct (totalEarnings (mem w)); simpl;
    destruct f1, f2; try done; simpl; try case_bool_decide; simpl; done.
Qed.

Lemma find_after_removal (id : string) (prods : list Product) :
  find (has_id id) (filter (fun p => p_id p ≠ id) prods) = None.
Proof.
  induction prods as [|p prods IH]; [done|].
  rewrite filter_cons. destruct (decide (p_id p ≠ id)) as [Hne|_]; [|done].
  simpl. unfold has_id at 1. by rewrite bool_decide_eq_false_2.
Qed.

Lemma find_after_update (id : string) (u p0 : Product) (prods : list Product) :
  p_id u = id ->
  find (has_id id) prods = Some p0 ->
  find (has_id id)
       (map (fun p => if bool_decide (p_id p = id) then u else p) prods) = Some u.
Proof.
  intros Hu. induction prods as [|p prods IH]; [done|].
  simpl. unfold has_id at 1 3, getId, Product_HasId.
  case_bool_decide as Hp; simpl.
  - intros _. by rewrite bool_decide_eq_true_2.
  - by rewrite (bool_decide_eq_false_2 _ Hp).
Qed.

Lemma recordSale_keeps_nonneg (c : SaleCall) (w : World) :
  quantities_nonneg (products (mem w)) ->
  quantities_nonneg (products (mem (recordSale c w))).
Proof.
  intros Hinv.
  destruct (lookup_product (sc_productId c) w) as [product|] eqn:Hf.
  - destruct (recordSale_products c w product Hf) as [-> | [-> | [Hpos ->]]].
    + done.
    + unfold quantities_nonneg in *. rewrite Forall_forall in *.
      intros p Hp. apply list_elem_of_filter in Hp as [_ Hp]. by apply Hinv.
    + unfold quantities_nonneg in *. apply Forall_map.
      eapply Forall_impl; [exact Hinv|]. intros p Hp. simpl.
      case_bool_decide; unfold with_quantity; simpl in *; lia.
  - by rewrite recordSale_skips_unknown.
Qed.

(** C2: stock never goes negative.  Starting from non-negative quantities, any
    run of sales (whatever the quantities sold, the prices and the faults of
    the stores) leaves every in-memory product with a non-negative quantity.
    A sale that meets no fault and sells at least the quantity in stock
    removes the product from memory and from the products store; one that
    sells less keeps it, in both, with the quantity lowered by what was sold. *)
Theorem stock_never_negative :
  (forall (calls : list SaleCall) (w : World),
     quantities_nonneg (products (mem w)) ->
     quantities_nonneg (products (mem (recordSales calls w))))
  /\
  (forall (c : SaleCall) (w : World) (product : Product),
     fault_free c ->
     lookup_product (sc_productId c) w = Some product ->
     let w' := recordSale c w in
     let left := quantity product - sc_quantity c in
     (quantity product <= sc_quantity c ->
        lookup_product (p_id product) w' = None /\
        (forall p, p ∈ products (mem w') -> p_id p ≠ p_id product) /\
        os_products (idb w') !! p_id product = None)
     /\
     (sc_quantity c < quantity product ->
        products (mem w') =
          map (fun p => if bool_decide (p_id p = p_id product)
                        then with_quantity product left else p)
              (products (mem w)) /\
        lookup_product (p_id product) w' = Some (with_quantity product left) /\
        os_products (idb w') !! p_id product = Some (with_quantity product left))).
Proof.
  split.
  - intros calls. induction calls as [|c calls IH]; intros w Hinv; [done|].
    simpl. apply IH. by apply recordSale_keeps_nonneg.
  - intros c w product Hfree Hf w' left.
    pose proof (find_has_id _ _ _ Hf) as [Hid _].
    unfold getId, Product_HasId in Hid.
    subst w' left. rewrite (recordSale_fault_free c w product Hfree Hf).
    cbv zeta. split; intros Hq.
    + rewrite bool_decide_eq_true_2 by lia.
      unfold lookup_product. simpl. split_and!.
      * apply find_after_removal.
      * intros p Hp. by apply list_elem_of_filter in Hp as [Hne _].
      * apply lookup_delete_eq.
    + rewrite bool_decide_eq_false_2 by lia.
      unfold lookup_product. simpl. split_and!.
      * done.
      * apply find_after_update with (p0 := product); [done|].
        unfold lookup_product in Hf. by rewrite Hid.
      * apply lookup_insert_eq.
Qed.

Lemma stock_never_negative_witness :
  quantities_nonneg (products (mem (recordSales [sale 1000 "p1" 2 100; sale 2000 "p1" 7 100] shop)))
  /\ lookup_product "p1" (recordSale (sale 2000 "p1" 5 100) shop) = None
  /\ os_products (idb (recordSale (sale 2000 "p1" 5 100) shop)) !! "p1" = None
  /\ lookup_product "p1" (recordSale (sale 1000 "p1" 2 100) shop) = Some (with_quantity widget 3).
Proof.
  destruct stock_never_negative as [Hinv Hstep].
  assert (Hshop : quantities_nonneg (products (mem shop))).
  { repeat constructor. simpl. lia. }
  assert (Hfree : forall n q, fault_free (sale n "p1" q 100)) by (by split).
  assert (Hf : forall n q, lookup_product (sc_productId (sale n "p1" q 100)) shop = Some widget)
    by reflexivity.
  split; [exact (Hinv _ shop Hshop)|].
  destruct (Hstep (sale 2000 "p1" 5 100) shop widget (Hfree _ _) (Hf _ _)) as [Hout _].
  destruct (Hstep (sale 1000 "p1" 2 100) shop widget (Hfree _ _) (Hf _ _)) as [_ Hkept].
  destruct Hout as (H1 & _ & H2); [simpl; lia|].
  destruct Hkept as (_ & H3 & _); [simpl; lia|].
  split; [exact H1|]. split; [exact H2|exact H3].
Defined.

Lemma log_total_cons (s : SaleRecord) (log : list SaleRecord) :
  log_total (s :: log) = (soldAtPrice s * Qc_of_Z (s_quantity s) + log_total log)%Qc.
Proof. reflexivity. Qed.

Lemma getEarnings_saved (x : Qc) (l : LocalStorage) :
  TOTAL_EARNINGS l = Some (Num x) -> getEarnings l = Num x.
Proof. unfold getEarnings. by intros ->. Qed.

Lemma recordSales_earnings (calls : list SaleCall) :
  forall (w : World) (a : Qc),
    totalEarnings (mem w) = Num a ->
    getEarnings (ls w) = Num a ->
    all_succeed calls w = true ->
    let w' := recordSales calls w in
    totalEarnings (mem w') = Num (a + calls_total calls) /\
    getEarnings (ls w') = Num (a + calls_total calls) /\
    log_total (sales (mem w')) = (log_total (sales (mem w)) + calls_total calls)%Qc.
Proof.
  induction calls as [|c calls IH]; intros w a Hm Hs Hok; simpl in *.
  - rewrite Hm, Hs. split_and!; [f_equal; ring | f_equal; ring | ring].
  - apply andb_prop in Hok as [Hc Hrest].
    apply sale_succeeds_inv in Hc as (product & Hf & Hne).
    destruct (recordSale_earnings c w product Hf Hne) as (Hm' & Hs' & Hlog).
    assert (Hcur : current_earnings w = a) by (unfold current_earnings; by rewrite Hm).
    rewrite Hcur in Hm', Hs'. apply getEarnings_saved in Hs'.
    destruct (IH _ _ Hm' Hs' Hrest) as (H1 & H2 & H3).
    rewrite H1, H2, H3, Hlog, log_total_cons. simpl.
    unfold sale_amount. split_and!; [f_equal; ring | f_equal; ring | ring].
Qed.

(** C3: a successful sale sets the earnings, in memory and in the scalar store,
    to the current earnings (0 when they are NaN) plus unit price times
    quantity; so from earnings 0 and an empty sales log, as a reset leaves
    them, the earnings after any run of successful sales are the sum of
    [soldAtPrice * quantity] over the sales of the run, which is also the sum
    over the sales log in memory. *)
Theorem earnings_accumulate :
  (forall (c : SaleCall) (w : World),
     sale_succeeds c w = true ->
     totalEarnings (mem (recordSale c w)) = Num (current_earnings w + sale_amount c) /\
     getEarnings (ls (recordSale c w)) = Num (current_earnings w + sale_amount c) /\
     (totalEarnings (mem w) = NaN -> current_earnings w = 0%Qc))
  /\
  (forall (calls : list SaleCall) (w : World),
     totalEarnings (mem w) = Num 0 ->
     getEarnings (ls w) = Num 0 ->
     sales (mem w) = [] ->
     all_succeed calls w = true ->
     let w' := recordSales calls w in
     totalEarnings (mem w') = Num (calls_total calls) /\
     getEarnings (ls w') = Num (calls_total calls) /\
     log_total (sales (mem w')) = calls_total calls).
Proof.
  split.
  - intros c w Hok. apply sale_succeeds_inv in Hok as (product & Hf & Hne).
    destruct (recordSale_earnings c w product Hf Hne) as (Hm & Hs & _).
    split_and!; [done | by apply getEarnings_saved |].
    unfold current_earnings. by intros ->.
  - intros calls w Hm Hs Hlog Hok.
    destruct (recordSales_earnings calls w 0%Qc Hm Hs Hok) as (H1 & H2 & H3).
    simpl. rewrite H1, H2, H3, Hlog. simpl.
    split_and!; [f_equal; ring | f_equal; ring | ring].
Qed.

Lemma earnings_accumulate_witness :
  let calls := [sale 1000 "p1" 2 100; sale 2000 "p1" 3 100] in
  sale_succeeds (sale 1000 "p1" 2 100) shop = true /\
  totalEarnings (mem (recordSale (sale 1000 "p1" 2 100) shop)) =
    Num (current_earnings shop + sale_amount (sale 1000 "p1" 2 100)) /\
  all_succeed calls shop = true /\
  totalEarnings (mem (recordSales calls shop)) = Num (calls_total calls).
Proof.
  destruct earnings_accumulate as [Hstep Hrun].
  split; [reflexivity|].
  split; [exact (proj1 (Hstep (sale 1000 "p1" 2 100) shop eq_refl))|].
  split; [reflexivity|].
  exact (proj1 (Hrun [sale 1000 "p1" 2 100; sale 2000 "p1" 3 100] shop
                  eq_refl eq_refl eq_refl eq_refl)).
Defined.

(** The two scenarios of the specification: 5 widgets, 2 sold at 100, then the
    remaining 3 sold at 100. *)
Example scenario_first_sale :
  let w := recordSale (sale 1000 "p1" 2 100) shop in
  (quantity <$> lookup_product "p1" w) = Some 3 /\
  length (sales (mem w)) = 1%nat /\
  totalEarnings (mem w) = Num (Qc_of_Z 200).
Proof. vm_compute. split_and!; f_equal; by apply Qc_is_canon. Qed.

Example scenario_second_sale :
  let w := recordSales [sale 1000 "p1" 2 100; sale 2000 "p1" 3 100] shop in
  lookup_product "p1" w = None /\
  os_products (idb w) !! "p1" = None /\
  length (sales (mem w)) = 2%nat /\
  totalEarnings (mem w) = Num (Qc_of_Z 500).
Proof. vm_compute. split_and!; f_equal; by apply Qc_is_canon. Qed.

(** C10: the id of a sale record is the decimal text of the clock reading taken
    when it is built.  Two sales made in the same millisecond therefore carry
    the same id: both are in the in-memory log, and in the sales store, which
    is keyed by id, the second has replaced the first. *)
Theorem sale_id_is_timestamp :
  (forall (c : SaleCall) (w : World) (product : Product),
     lookup_product (sc_productId c) w = Some product ->
     sc_f_sale c ≠ TxFault ->
     exists s, sales (mem (recordSale c w)) = s :: sales (mem w) /\
               s_id s = toString (sc_now_id c))
  /\
  (forall (c1 c2 : SaleCall) (w : World) (p1 p2 : Product),
     fault_free c1 -> fault_free c2 ->
     sc_now_id c1 = sc_now_id c2 ->
     lookup_product (sc_productId c1) w = Some p1 ->
     lookup_product (sc_productId c2) (recordSale c1 w) = Some p2 ->
     let w2 := recordSale c2 (recordSale c1 w) in
     sales (mem w2) = new_sale c2 p2 :: new_sale c1 p1 :: sales (mem w) /\
     s_id (new_sale c1 p1) = s_id (new_sale c2 p2) /\
     os_sales (idb w2) =
       <[toString (sc_now_id c2) := new_sale c2 p2]> (os_sales (idb w)) /\
     os_sales (idb w2) !! s_id (new_sale c1 p1) = Some (new_sale c2 p2)).
Proof.
  split.
  - intros c w product Hf Hne.
    destruct (recordSale_earnings c w product Hf Hne) as (_ & _ & Hlog).
    by exists (new_sale c product).
  - intros c1 c2 w p1 p2 Hfree1 Hfree2 Hnow Hf1 Hf2 w2. subst w2.
    rewrite (recordSale_fault_free c2 _ p2 Hfree2 Hf2).
    rewrite (recordSale_fault_free c1 w p1 Hfree1 Hf1).
    cbv zeta. simpl. rewrite Hnow. split_and!.
    + done.
    + done.
    + apply insert_insert_eq.
    + apply lookup_insert_eq.
Qed.

Lemma sale_id_is_timestamp_witness :
  let c1 := sale 1700000000123 "p1" 1 100 in
  let c2 := sale 1700000000123 "p1" 2 90 in
  let w2 := recordSale c2 (recordSale c1 shop) in
  s_id <$> sales (mem w2) = ["1700000000123"; "1700000000123"] /\
  os_sales (idb w2) = <["1700000000123" := new_sale c2 widget]> ∅.
Proof.
  destruct sale_id_is_timestamp as [_ Hsame].
  pose proof (Hsame (sale 1700000000123 "p1" 1 100) (sale 1700000000123 "p1" 2 90)
                shop widget (with_quantity widget 4)
                (conj eq_refl eq_refl) (conj eq_refl eq_refl) eq_refl eq_refl eq_refl)
    as (Hlog & _ & Hstore & _).
  cbv zeta in *. split.
  - rewrite Hlog. reflexivity.
  - exact Hstore.
Defined.

Example toString_timestamp : toString 1700000000123 = "1700000000123".
Proof. reflexivity. Qed.

(** ** Inventory value *)

Lemma or_else_zero (n : number) :
  or_else n (Num 0) = Num (match n with NaN => 0%Qc | Num x => x end).
Proof.
  destruct n as [|x]; [done|]. unfold or_else, falsy.
  case_bool_decide; by subst.
Qed.

Lemma inventory_fold (prods : list Product) (a : Qc) :
  fold_left
    (fun sum prod =>
       let retailPriceStr := split_head "/" (price prod) in
       let cleanedPrice := keep_digits_and_dots retailPriceStr in
       let price := or_else (parseFloat cleanedPrice) (Num 0) in
       num_add sum (num_mul price (of_int (quantity prod))))
    prods (Num a) = Num (a + inventory_sum prods).
Proof.
  revert a. induction prods as [|p prods IH]; intros a; simpl.
  - f_equal. ring.
  - rewrite or_else_zero. simpl. rewrite IH. f_equal.
    unfold parsed_retail_price, retail_text. ring.
Qed.

Lemma inventory_sum_app (l1 l2 : list Product) :
  inventory_sum (l1 ++ l2) = (inventory_sum l1 + inventory_sum l2)%Qc.
Proof. induction l1 as [|p l1 IH]; simpl; [ring | rewrite IH; ring]. Qed.

(** *** The code reads the price the specification describes *)

Lemma index_slash_cons (c : ascii) (s : string) :
  index 0 "/" (String c s) =
  if Ascii.eqb c "/" then Some 0%nat else S <$> index 0 "/" s.
Proof.
  change (index 0 "/" (String c s)) with
    (if (if ascii_dec "/" c then String.prefix "" s else false)
     then Some 0%nat
     else match index 0 "/" s with Some n => Some (S n) | None => None end).
  destruct (Ascii.eqb_spec c "/") as [->|Hne].
  - destruct (ascii_dec "/" "/"); [by destruct s | done].
  - destruct (ascii_dec "/" c) as [Heq|_]; [by subst|].
    by destruct (index 0 "/" s).
Qed.

Lemma split_head_spec (s : string) : split_head "/" s = spec_retail_part s.
Proof.
  unfold spec_retail_part.
  induction s as [|c s IH]; [reflexivity|].
  rewrite index_slash_cons. cbn [split_head].
  destruct (Ascii.eqb c "/"); [reflexivity|].
  rewrite IH. destruct (index 0 "/" s) as [n|]; reflexivity.
Qed.

Lemma price_character_spec (c : ascii) :
  is_digit c || is_dot c = bool_decide (c ∈ price_characters).
Proof. destruct c as [[] [] [] [] [] [] [] []]; vm_compute; reflexivity. Qed.

Lemma keep_digits_and_dots_spec (s : string) :
  list_ascii_of_string (keep_digits_and_dots s) = digits_and_dots s.
Proof.
  unfold digits_and_dots. induction s as [|c s IH]; [reflexivity|].
  cbn [keep_digits_and_dots list_ascii_of_string List.filter].
  rewrite <- price_character_spec.
  destruct (is_digit c || is_dot c); cbn [list_ascii_of_string]; by rewrite IH.
Qed.

Lemma digits_and_dots_chars (s : string) :
  Forall (fun c => is_digit c || is_dot c = true) (digits_and_dots s).
Proof.
  unfold digits_and_dots. apply Forall_forall. intros c Hc.
  apply list_elem_of_In, filter_In in Hc as [_ Hc].
  by rewrite price_character_spec.
Qed.

Lemma after_dot_chars (l : list ascii) :
  Forall (fun c => is_digit c || is_dot c = true) l ->
  Forall (fun c => is_digit c || is_dot c = true) (after_dot l).
Proof.
  induction 1 as [|c l Hc Hl IH]; [constructor|].
  simpl. by destruct (Ascii.eqb c ".").
Qed.

Lemma digit_is_no_dot (c : ascii) : is_digit c = true -> Ascii.eqb c "." = false.
Proof. destruct c as [[] [] [] [] [] [] [] []]; vm_compute; congruence. Qed.

(** On a text of digits and dots, [span_digits] stops at the first dot. *)
Lemma span_digits_up_to_dot (l : list ascii) :
  Forall (fun c => is_digit c || is_dot c = true) l ->
  fst (span_digits (string_of_list_ascii l)) = up_to_dot l /\
  (snd (span_digits (string_of_list_ascii l)) = EmptyString /\ after_dot l = []
   \/ snd (span_digits (string_of_list_ascii l)) =
        String "." (string_of_list_ascii (after_dot l))).
Proof.
  induction 1 as [|c l Hc Hl IH]; [by split; [|left]|].
  cbn [string_of_list_ascii span_digits up_to_dot after_dot].
  destruct (is_digit c) eqn:Hd.
  - rewrite (digit_is_no_dot c Hd).
    destruct (span_digits (string_of_list_ascii l)) as [ds r]. simpl in *.
    destruct IH as [-> IH]. done.
  - simpl in Hc. unfold is_dot in Hc. rewrite Hc. simpl.
    apply Ascii.eqb_eq in Hc as ->. split; [done | by right].
Qed.

Lemma up_to_dot_digits (l : list ascii) :
  Forall (fun c => is_digit c || is_dot c = true) l ->
  Forall (fun c => is_digit c = true) (up_to_dot l).
Proof.
  induction 1 as [|c l Hc Hl IH]; [constructor|].
  simpl. destruct (Ascii.eqb c ".") eqn:Hdot; [constructor|].
  constructor; [|done]. unfold is_dot in Hc. rewrite Hdot in Hc.
  by rewrite orb_false_r in Hc.
Qed.

Lemma digit_value_spec (c : ascii) : is_digit c = true -> digit_value c = decimal_digit c.
Proof.
  destruct c as [[] [] [] [] [] [] [] []]; vm_compute; intros Hc;
    first [reflexivity | discriminate].
Qed.

Lemma whole_value_fold (ds : list ascii) (a : Z) :
  Forall (fun c => is_digit c = true) ds ->
  fold_left (fun acc c => 10 * acc + digit_value c) ds a =
  a * 10 ^ Z.of_nat (length ds) + whole_value ds.
Proof.
  intros Hds. revert a. induction Hds as [|d ds Hd Hds IH]; intros a; [simpl; lia|].
  cbn [fold_left whole_value length]. rewrite IH, (digit_value_spec d Hd).
  rewrite Nat2Z.inj_succ, Z.pow_succ_r by lia. ring.
Qed.

Lemma digits_value_whole (ds : list ascii) :
  Forall (fun c => is_digit c = true) ds -> digits_value ds = whole_value ds.
Proof. intros Hds. unfold digits_value. rewrite whole_value_fold by done. lia. Qed.

Lemma Qc_of_Z_pow10_nonzero (n : nat) : Qc_of_Z (10 ^ Z.of_nat n) <> 0%Qc.
Proof.
  intros H. rewrite <- Z2Qc_inj_0 in H. apply Z2Qc_inj in H.
  assert (0 < 10 ^ Z.of_nat n) by (apply Z.pow_pos_nonneg; lia). lia.
Qed.

Lemma fraction_value_spec (ds : list ascii) :
  Forall (fun c => is_digit c = true) ds ->
  fraction_value ds =
  (Qc_of_Z (digits_value ds) / Qc_of_Z (10 ^ Z.of_nat (length ds)))%Qc.
Proof.
  intros Hds. rewrite digits_value_whole by done.
  induction Hds as [|d ds Hd Hds IH].
  - simpl. apply Qc_is_canon. reflexivity.
  - cbn [fraction_value whole_value length]. rewrite IH.
    rewrite Nat2Z.inj_succ, Z.pow_succ_r by lia.
    rewrite Z2Qc_inj_add, !Z2Qc_inj_mul.
    pose proof (Qc_of_Z_pow10_nonzero (length ds)).
    field. split; [done|]. done.
Qed.

(** What [parseFloat] makes of the cleaned text, in the terms of the
    specification: the two runs of digits it reads, and the text it is left
    with. *)
Lemma parseFloat_cleaned (s : string) :
  let whole := up_to_dot (digits_and_dots s) in
  let frac := up_to_dot (after_dot (digits_and_dots s)) in
  parseFloat (keep_digits_and_dots s) =
    match whole, frac with
    | [], [] => NaN
    | _, _ => Num (Qc_of_Z (whole_value whole) + fraction_value frac)
    end.
Proof.
  cbv zeta.
  pose proof (digits_and_dots_chars s) as Hchars.
  rewrite <- (string_of_list_ascii_of_string (keep_digits_and_dots s)).
  rewrite keep_digits_and_dots_spec.
  destruct (span_digits_up_to_dot _ Hchars) as [Hip Hrest].
  unfold parseFloat.
  destruct (span_digits (string_of_list_ascii (digits_and_dots s))) as [ip rest].
  simpl in Hip, Hrest. subst ip.
  pose proof (up_to_dot_digits _ Hchars) as Hwhole.
  pose proof (up_to_dot_digits _ (after_dot_chars _ Hchars)) as Hfrac.
  destruct Hrest as [[-> Hnone] | ->].
  - rewrite Hnone. simpl.
    destruct (up_to_dot (digits_and_dots s)) eqn:Hw; [done|].
    rewrite digits_value_whole by done. f_equal. simpl. ring.
  - change (is_dot ".") with true. cbv iota.
    destruct (span_digits_up_to_dot _ (after_dot_chars _ Hchars)) as [Hfp _].
    destruct (span_digits (string_of_list_ascii (after_dot (digits_and_dots s))))
      as [fp rest']. simpl in Hfp. subst fp.
    rewrite fraction_value_spec by done.
    destruct (up_to_dot (digits_and_dots s)) eqn:Hw;
      destruct (up_to_dot (after_dot (digits_and_dots s))) eqn:Hf;
      rewrite ?digits_value_whole by done; reflexivity.
Qed.

Lemma parsed_retail_price_spec (p : Product) :
  parsed_retail_price p = spec_parsed_price (spec_retail_part (price p)).
Proof.
  unfold parsed_retail_price, retail_text, spec_parsed_price.
  rewrite parseFloat_cleaned, split_head_spec. cbv zeta.
  destruct (up_to_dot (digits_and_dots (spec_retail_part (price p)))) eqn:Hw;
    destruct (up_to_dot (after_dot (digits_and_dots (spec_retail_part (price p)))))
      eqn:Hf; reflexivity.
Qed.

Lemma unreadable_spec (p : Product) :
  parseFloat (retail_text p) = NaN <-> spec_unreadable (spec_retail_part (price p)).
Proof.
  unfold retail_text, spec_unreadable.
  rewrite parseFloat_cleaned, split_head_spec. cbv zeta.
  destruct (up_to_dot (digits_and_dots (spec_retail_part (price p)))) eqn:Hw;
    destruct (up_to_dot (after_dot (digits_and_dots (spec_retail_part (price p)))))
      eqn:Hf; (split; [intros ?; done | intros [? ?]; done]).
Qed.

Lemma spec_total_fold (prods : list Product) (a : Qc) :
  fold_left Qcplus
    (map (fun p => (spec_parsed_price (spec_retail_part (price p)) * Qc_of_Z (quantity p))%Qc)
         prods) a = (a + inventory_sum prods)%Qc.
Proof.
  revert a. induction prods as [|p prods IH]; intros a; simpl; [ring|].
  rewrite IH, parsed_retail_price_spec. ring.
Qed.

Lemma inventory_sum_spec (prods : list Product) :
  inventory_sum prods = spec_totalInventoryValue prods.
Proof. unfold spec_totalInventoryValue. rewrite spec_total_fold. ring. Qed.

Lemma inventory_value_eq_sum (prods : list Product) :
  totalInventoryValue prods = Num (inventory_sum prods).
Proof. unfold totalInventoryValue. rewrite inventory_fold. f_equal. ring. Qed.

(** C9: the inventory value is the sum over the products of the parsed retail
    price times the quantity, where the retail price is the part of the price
    text before the first ['/'] and is read as the decimal number its digits
    and dots write.  A product whose retail part has no digit to read counts
    for 0: the value is the one of the collection without it, and it is
    always a number.  Such a product is exactly one at which [parseFloat]
    gives NaN. *)
Theorem totalInventoryValue_is_sum :
  (forall prods : list Product,
     totalInventoryValue prods = Num (spec_totalInventoryValue prods))
  /\
  (forall (before after : list Product) (p : Product),
     spec_unreadable (spec_retail_part (price p)) ->
     totalInventoryValue (before ++ p :: after) = totalInventoryValue (before ++ after))
  /\
  (forall p : Product,
     parseFloat (keep_digits_and_dots (split_head "/" (price p))) = NaN <->
     spec_unreadable (spec_retail_part (price p))).
Proof.
  split_and!.
  - intros prods. by rewrite inventory_value_eq_sum, inventory_sum_spec.
  - intros before after p Hbad%unreadable_spec.
    rewrite !inventory_value_eq_sum, !inventory_sum_app. simpl.
    unfold parsed_retail_price. rewrite Hbad. f_equal. ring.
  - intros p. apply unreadable_spec.
Qed.

Lemma totalInventoryValue_is_sum_witness :
  spec_retail_part (price bolt) = "1,250.50 DA" /\
  digits_and_dots (spec_retail_part (price bolt)) = list_ascii_of_string "1250.50" /\
  totalInventoryValue [bolt; unpriced] = Num (Qc_of_Z 2501) /\
  totalInventoryValue [bolt; unpriced] = totalInventoryValue [bolt].
Proof.
  destruct totalInventoryValue_is_sum as (Hsum & Hbad & _).
  split_and!.
  - reflexivity.
  - reflexivity.
  - rewrite Hsum. vm_compute. f_equal. by apply Qc_is_canon.
  - apply (Hbad [bolt] [] unpriced). split; reflexivity.
Defined.

Example totalInventoryValue_sample :
  totalInventoryValue
    [widget;
     mkProduct "p2" "Bolt" "12.5 DA/3" 4 "c1" "222" "";
     mkProduct "p3" "Nut" "/80" 7 "c1" "333" "";
     mkProduct "p4" "Cog" "" 2 "c1" "444" ""]
  = Num (Qc_of_Z 550).
Proof. vm_compute. f_equal. by apply Qc_is_canon. Qed.

(** ** Object stores *)

Section ObjectStores.
Context {T : Type} `{HasId T}.

Lemma put_all_cons (x : T) (items : list T) (m : gmap string T) :
  put_all (x :: items) m = put_all items (<[getId x := x]> m).
Proof. reflexivity. Qed.

Lemma put_all_app (l1 l2 : list T) (m : gmap string T) :
  put_all (l1 ++ l2) m = put_all l2 (put_all l1 m).
Proof. unfold put_all. apply fold_left_app. Qed.

(** Records with pairwise distinct ids, none of them in the store yet, are
    all there after [put_all], next to what the store held. *)
Lemma map_to_list_put_all (items : list T) :
  forall m : gmap string T,
    NoDup (getId <$> items) ->
    (forall x, x ∈ items -> m !! getId x = None) ->
    map_to_list (put_all items m) ≡ₚ (keyed <$> items) ++ map_to_list m.
Proof.
  induction items as [|x items IH]; intros m Hnd Hfresh; [done|].
  rewrite put_all_cons. rewrite fmap_cons in Hnd.
  apply NoDup_cons in Hnd as [Hx Hnd].
  rewrite IH; [| done |].
  - rewrite map_to_list_insert by (apply Hfresh; left).
    rewrite fmap_cons. unfold keyed at 3.
    by rewrite <- Permutation_middle.
  - intros y Hy. rewrite lookup_insert_ne.
    + apply Hfresh. by right.
    + intros Heq. apply Hx. rewrite Heq. by apply list_elem_of_fmap_2.
Qed.

Lemma records_put_all (items : list T) :
  NoDup (getId <$> items) -> records (put_all items ∅) ≡ₚ items.
Proof.
  intros Hnd. unfold records.
  rewrite (map_to_list_put_all items ∅ Hnd) by (intros; apply lookup_empty).
  rewrite map_to_list_empty, app_nil_r, <- list_fmap_compose.
  by rewrite list_fmap_id.
Qed.

Lemma well_keyed_empty : well_keyed ∅.
Proof. intros k x. by rewrite lookup_empty. Qed.

Lemma well_keyed_insert (x : T) (m : gmap string T) :
  well_keyed m -> well_keyed (<[getId x := x]> m).
Proof.
  intros Hm k y. rewrite lookup_insert. case_decide; [|apply Hm].
  intros [= <-]. done.
Qed.

Lemma well_keyed_delete (k : string) (m : gmap string T) :
  well_keyed m -> well_keyed (delete k m).
Proof.
  intros Hm k' y. rewrite lookup_delete. case_decide; [done | apply Hm].
Qed.

Lemma well_keyed_put_all (items : list T) :
  forall m, well_keyed m -> well_keyed (put_all items m).
Proof.
  induction items as [|x items IH]; intros m Hm; [done|].
  rewrite put_all_cons. by apply IH, well_keyed_insert.
Qed.

Lemma put_all_list_to_map (items : list T) :
  NoDup (getId <$> items) ->
  put_all items ∅ = list_to_map (keyed <$> items).
Proof.
  intros Hnd. apply list_to_map_flip.
  rewrite (map_to_list_put_all items ∅ Hnd) by (intros; apply lookup_empty).
  by rewrite map_to_list_empty, app_nil_r.
Qed.

(** Writing back what [getAll] listed rebuilds the store. *)
Lemma put_all_records (m : gmap string T) :
  well_keyed m -> put_all (records m) ∅ = m.
Proof.
  intros Hm.
  assert (Hpairs : keyed <$> records m = map_to_list m).
  { unfold records. rewrite <- list_fmap_compose.
    rewrite <- (list_fmap_id (map_to_list m)) at 2.
    apply list_fmap_ext. intros i [k x] Hkx. 
    apply list_elem_of_lookup_2, elem_of_map_to_list in Hkx.
    unfold keyed. simpl. by rewrite (Hm k x Hkx). }
  rewrite put_all_list_to_map.
  - rewrite Hpairs. apply list_to_map_to_list.
  - assert (Hids : getId <$> records m = (map_to_list m).*1).
    { rewrite <- Hpairs, <- list_fmap_compose. by apply list_fmap_ext. }
    rewrite Hids. apply NoDup_fst_map_to_list.
Qed.
End ObjectStores.

(** ** Loading and restoring *)

Lemma insert_by_timestamp_perm (s : SaleRecord) (l : list SaleRecord) :
  insert_by_timestamp s l ≡ₚ s :: l.
Proof.
  induction l as [|x l IH]; [done|]. simpl. case_bool_decide; [done|].
  rewrite IH. apply perm_swap.
Qed.


Lemma loadData_fault_free (w : World) :
  loadData NoFault NoFault NoFault w = (Resolved tt, loaded w).
Proof. reflexivity. Qed.

Lemma overwriteLocalData_fault_free cats prods earnings sls (w : World) :
  overwriteLocalData OwNone cats prods earnings sls w =
    (Resolved tt, overwritten cats prods earnings sls w).
Proof. reflexivity. Qed.





(** The bundle there is the memory of the running program; the sale that
    comes back is the one put last, which is the older of the two. *)
Example restore_of_same_millisecond_sales :
  let bundle := mem same_millisecond in
  let w' := exec (loadData NoFault NoFault NoFault)
                 (exec (overwriteLocalData OwNone (categories bundle) (products bundle)
                          (totalEarnings bundle) (sales bundle)) emptyWorld) in
  s_quantity <$> sales bundle = [2; 1] /\
  s_id <$> sales bundle = ["1700000000123"; "1700000000123"] /\
  s_quantity <$> sales (mem w') = [1] /\
  totalEarnings (mem w') = Num (Qc_of_Z 280).
Proof. vm_compute. split_and!; try reflexivity. f_equal. by apply Qc_is_canon. Qed.

(** ** Snapshots *)

(** C6: a push followed by a pull returns the categories, products, sales and
    earnings that were in memory at the push.  The snapshot is stored under
    the key made of [GLOBAL_CLOUD_DB_] and the lower-cased email, and the push
    writes no other key: a pull that spells the email with other letter case
    returns the same bundle, and a pull for an email that is different once
    lower-cased returns what it returned before the push. *)
Theorem push_then_pull (w : World) (now : Z) (u : User) (e : Qc) (pull_email : string) :
  user (mem w) = Some u ->
  totalEarnings (mem w) = Num e ->
  let pushed := exec (handleManualSync now) w in
  let bundle := {| snap_categories := categories (mem w);
                   snap_products := products (mem w);
                   snap_sales := Some (sales (mem w));
                   snap_earnings := JNum e;
                   lastUpdated := now |} in
  cloud (ls pushed) =
    <["GLOBAL_CLOUD_DB_" ++ toLowerCase (email u) := bundle]> (cloud (ls w)) /\
  result (fetchFromCloud (email u)) pushed = Resolved (Some bundle) /\
  (toLowerCase pull_email = toLowerCase (email u) ->
   result (fetchFromCloud pull_email) pushed = Resolved (Some bundle)) /\
  (toLowerCase pull_email <> toLowerCase (email u) ->
   result (fetchFromCloud pull_email) pushed = result (fetchFromCloud pull_email) w).
Proof.
  intros Hu He.
  unfold result, exec, fetchFromCloud, handleManualSync, try_catch, bind,
    get_mem, get_ls, syncToCloud, set_ls, ret, cloudKey, payload.
  simpl. rewrite Hu. simpl. rewrite He. split_and!.
  - done.
  - by rewrite lookup_insert_eq.
  - intros Hcase. by rewrite Hcase, lookup_insert_eq.
  - intros Hcase. rewrite lookup_insert_ne; [done|].
    intros Hk. apply Hcase. symmetry. by apply (inj (String.append "GLOBAL_CLOUD_DB_")).
Qed.

(** ** Reset *)

(** C7 (as amended): a reset sets the earnings to 0 and empties the sales, in
    memory and in the stores, and leaves the categories and the products in
    memory as they were.  The categories and products stores are written
    anew from the in-memory collections; they are as they were when they
    agreed with memory before the reset. *)
Theorem resetEarnings_frame (w : World) :
  let w' := exec (resetEarnings true OwNone) w in
  (totalEarnings (mem w') = Num 0 /\ getEarnings (ls w') = Num 0) /\
  (sales (mem w') = [] /\ os_sales (idb w') = ∅) /\
  (categories (mem w') = categories (mem w) /\
   products (mem w') = products (mem w)) /\
  (os_categories (idb w') = put_all (categories (mem w)) ∅ /\
   os_products (idb w') = put_all (products (mem w)) ∅) /\
  (coherent w ->
   os_categories (idb w') = os_categories (idb w) /\
   os_products (idb w') = os_products (idb w)).
Proof.
  simpl. split_and!; try reflexivity.
  intros [Hc Hp]. by rewrite Hc, Hp.
Qed.

Lemma shop_coherent : coherent (recordSale (sale 1000 "p1" 2 100) shop).
Proof. split; reflexivity. Qed.

Lemma resetEarnings_frame_witness :
  let w := recordSale (sale 1000 "p1" 2 100) shop in
  let w' := exec (resetEarnings true OwNone) w in
  totalEarnings (mem w') = Num 0 /\
  sales (mem w') = [] /\
  os_sales (idb w') = ∅ /\
  products (mem w') = [with_quantity widget 3] /\
  os_products (idb w') = os_products (idb w).
Proof.
  pose proof (resetEarnings_frame (recordSale (sale 1000 "p1" 2 100) shop))
    as ((He & _) & (Hs & Hss) & (_ & Hp) & _ & Hsame).
  destruct (Hsame shop_coherent) as [_ Hsp].
  cbv zeta in *. split_and!; [exact He | exact Hs | exact Hss | | exact Hsp].
  rewrite Hp. reflexivity.
Defined.

(** C7 (as stated) fails where memory and the stores disagree on the products.
    After a page load whose reads could not open the store, memory holds no
    product while the store still holds the shop's; a reset then writes the
    empty collection over the products store. *)
Lemma resetEarnings_rewrites_stores :
  ~ (forall w : World,
       let w' := exec (resetEarnings true OwNone) w in
       (totalEarnings (mem w') = Num 0 /\ getEarnings (ls w') = Num 0) /\
       (sales (mem w') = [] /\ os_sales (idb w') = ∅) /\
       (categories (mem w') = categories (mem w) /\
        products (mem w') = products (mem w)) /\
       (os_categories (idb w') = os_categories (idb w) /\
        os_products (idb w') = os_products (idb w))).
Proof.
  intros Hclaim. destruct (Hclaim unread) as (_ & _ & _ & _ & Hp).
  apply (f_equal size) in Hp. vm_compute in Hp. discriminate.
Qed.

Example resetEarnings_after_unread_start :
  products (mem unread) = [] /\
  dataLoadedSuccessfully (mem unread) = true /\
  os_products (idb unread) = {[ "p1" := widget ]} /\
  os_products (idb (exec (resetEarnings true OwNone) unread)) = ∅.
Proof. split_and!; reflexivity. Qed.

(** *** Where coherence comes from *)


Lemma overwritten_well_keyed cats prods earnings sls (w : World) :
  let w' := overwritten cats prods earnings sls w in
  well_keyed (os_categories (idb w')) /\ well_keyed (os_products (idb w')).
Proof. split; apply well_keyed_put_all, well_keyed_empty. Qed.

Section Upserts.
Context {T : Type} `{HasId T}.

Lemma put_all_snoc (l : list T) (x : T) (m : gmap string T) :
  put_all (l ++ [x]) m = <[getId x := x]> (put_all l m).
Proof. by rewrite put_all_app. Qed.

Lemma find_snoc (id : string) (l : list T) (x : T) :
  find (has_id id) (l ++ [x]) =
    match find (has_id id) l with
    | Some y => Some y
    | None => if has_id id x then Some x else None
    end.
Proof.
  induction l as [|y l IH]; simpl; [done|].
  destruct (has_id id y); [done | exact IH].
Qed.

(** [prev.filter(p => p.id !== id)] in memory is [delete(id)] in the store. *)
Lemma put_all_filter (id : string) (l : list T) :
  put_all (filter (fun p => getId p ≠ id) l) ∅ = delete id (put_all l ∅).
Proof.
  induction l as [|x l IH] using rev_ind.
  - simpl. by rewrite delete_empty.
  - rewrite filter_app, put_all_snoc.
    destruct (decide (getId x = id)) as [Hx|Hx].
    + rewrite filter_cons_False by (intros Hne; by apply Hne).
      rewrite filter_nil, app_nil_r, IH, <- Hx. by rewrite delete_insert_eq.
    + rewrite filter_cons_True by done.
      rewrite filter_nil, put_all_snoc, IH. by rewrite delete_insert_ne.
Qed.

(** [prev.map(p => p.id === id ? u : p)] in memory is [put(u)] in the store,
    when some record has that id. *)
Lemma put_all_replace (id : string) (u : T) (l : list T) :
  getId u = id ->
  put_all (map (fun p => if has_id id p then u else p) l) ∅ =
    match find (has_id id) l with
    | Some _ => <[id := u]> (put_all l ∅)
    | None => put_all l ∅
    end.
Proof.
  intros Hu. induction l as [|x l IH] using rev_ind; [done|].
  rewrite map_app. cbn [map]. rewrite !put_all_snoc, IH, find_snoc.
  destruct (has_id id x) eqn:Hx.
  - apply bool_decide_eq_true in Hx. rewrite Hu, <- Hx.
    destruct (find (has_id (getId x)) l); by rewrite !insert_insert_eq.
  - apply bool_decide_eq_false in Hx.
    destruct (find (has_id id) l); [|done].
    by rewrite insert_insert_ne.
Qed.

Lemma put_all_upsert (x : T) (l : list T) :
  put_all (upsert x l) ∅ = <[getId x := x]> (put_all l ∅).
Proof.
  unfold upsert. pose proof (put_all_replace (getId x) x l eq_refl) as Hr.
  destruct (find (has_id (getId x)) l); [exact Hr | apply put_all_snoc].
Qed.
End Upserts.

Lemma put_all_removal (id : string) (prods : list Product) :
  put_all (filter (fun p => p_id p ≠ id) prods) ∅ = delete id (put_all prods ∅).
Proof. exact (put_all_filter id prods). Qed.

Lemma put_all_update (id : string) (u : Product) (prods : list Product) :
  p_id u = id ->
  put_all (map (fun p => if bool_decide (p_id p = id) then u else p) prods) ∅ =
    match find (has_id id) prods with
    | Some _ => <[id := u]> (put_all prods ∅)
    | None => put_all prods ∅
    end.
Proof. exact (put_all_replace id u prods). Qed.

(** A sale that meets no fault keeps memory and stores coherent. *)
Lemma recordSale_coherent (c : SaleCall) (w : World) :
  fault_free c -> coherent w -> coherent (recordSale c w).
Proof.
  intros Hfree [Hc Hp].
  destruct (lookup_product (sc_productId c) w) as [product|] eqn:Hf.
  - rewrite (recordSale_fault_free c w product Hfree Hf). cbv zeta.
    split; simpl; [done|]. rewrite Hp. case_bool_decide.
    + by rewrite put_all_removal.
    + rewrite put_all_update by done.
      pose proof (find_has_id _ _ _ Hf) as [Hid _].
      change (getId product) with (p_id product) in Hid.
      unfold lookup_product in Hf. by rewrite Hid, Hf.
  - by rewrite recordSale_skips_unknown.
Qed.

(** So do adding a category or a product and deleting a product. *)
Lemma handleAddProduct_coherent (prod : Product) (w : World) :
  coherent w -> coherent (exec (handleAddProduct NoFault prod) w).
Proof.
  intros [Hc Hp]. split; simpl; [done|].
  by rewrite put_all_upsert, Hp.
Qed.

Lemma handleAddCategory_coherent (cat : Category) (w : World) :
  coherent w -> coherent (exec (handleAddCategory NoFault cat) w).
Proof.
  intros [Hc Hp]. split; simpl; [|done].
  by rewrite put_all_upsert, Hc.
Qed.

Lemma handleDeleteProduct_coherent (confirmed : bool) (id : string) (w : World) :
  coherent w -> coherent (exec (handleDeleteProduct confirmed NoFault id) w).
Proof.
  intros [Hc Hp]. destruct confirmed; [|done]. split; simpl; [done|].
  by rewrite put_all_removal, Hp.
Qed.

(** ** The two restore paths *)

(** The cloud-pull restore overwrites the stores and then loads from them. *)
Lemma handleLogin_reloads (w : World) (u : User) (cd : Snapshot) :
  cloud (ls w) !! cloudKey (email u) = Some cd ->
  exec (handleLogin true OwNone NoFault NoFault NoFault u) w =
    loaded (overwritten (snap_categories cd) (snap_products cd)
              (json_or_zero (snap_earnings cd)) (default [] (snap_sales cd))
              (mkWorld (setUser (Some u) (mem w)) (idb w) (saveUser u (ls w)))).
Proof.
  intros Hcd.
  unfold exec, handleLogin, bind, set_mem, set_ls, fetchFromCloud, get_ls, ret.
  simpl. rewrite Hcd. reflexivity.
Qed.

(** The file import overwrites the stores and then sets the in-memory state
    from the bundle itself. *)
Lemma handleImport_from_bundle (w : World) (data : ImportData) :
  let cats := default [] (i_categories data) in
  let prods := default [] (i_products data) in
  let sls := default [] (i_sales data) in
  let earnings := Num (field_or (i_earnings data) (field_or (i_totalEarnings data) 0%Qc)) in
  exec (handleImport true OwNone data) w =
    mkWorld
      (setTotalEarnings earnings
         (setSales sls (setProducts prods (setCategories cats (mem w)))))
      (mkIDB (put_all cats ∅) (put_all prods ∅) (put_all sls ∅))
      (saveEarnings earnings (ls w)).
Proof. reflexivity. Qed.

(** C4 does not hold of the import path.  The same bundle, with its sales
    listed oldest first, is restored once from the cloud and once from a file:
    after the cloud restore the sales log is what a load gives (most recent
    first); after the import it is the list of the file, which a load from the
    stores just written would not give.  With a file that lists one id twice,
    memory shows two products and the store holds one. *)
Theorem handleImport_does_not_reload :
  let imported := exec (handleImport true OwNone backup) emptyWorld in
  let pulled := exec (handleLogin true OwNone NoFault NoFault NoFault owner) backup_in_cloud in
  let twice := exec (handleImport true OwNone doubled) emptyWorld in
  idb imported = idb pulled /\
  sales (mem pulled) = [second_sale; first_sale] /\
  sales (mem imported) = [first_sale; second_sale] /\
  sales (mem (loaded imported)) = [second_sale; first_sale] /\
  length (products (mem twice)) = 2%nat /\
  size (os_products (idb twice)) = 1%nat.
Proof.
  assert (Hcd : cloud (ls backup_in_cloud) !! cloudKey (email owner) =
                Some (mkSnapshot [tools] [widget] (Some [first_sale; second_sale])
                                 (JNum (Qc_of_Z 500)) 0)).
  { unfold backup_in_cloud, exec, syncToCloud, set_ls. simpl. apply lookup_insert_eq. }
  cbv zeta. rewrite (handleLogin_reloads _ _ _ Hcd).
  split_and!; reflexivity.
Qed.

(** ** Error contract of the structured store *)

Section ErrorContract.
Context {T : Type} `{HasId T} (storeName : ObjectStore T).

(** A failure to open the store is absorbed by [getAll]. *)
Lemma getAll_open_fault (w : World) :
  getAll storeName OpenFault w = (Resolved [], w).
Proof. reflexivity. Qed.

(** A failed request is not: the promise was returned, not awaited, inside
    the [try]. *)
Lemma getAll_request_fault (w : World) :
  getAll storeName TxFault w = (Rejected, w).
Proof. reflexivity. Qed.

Lemma saveItem_transaction_fault (item : T) (w : World) :
  saveItem storeName TxFault item w = (Rejected, w).
Proof. reflexivity. Qed.

(** The [catch] of [saveItem] logs and does not rethrow. *)
Lemma saveItem_open_fault (item : T) (w : World) :
  saveItem storeName OpenFault item w = (Resolved tt, w).
Proof. reflexivity. Qed.

(** The [catch] of [deleteItem] rethrows. *)
Lemma deleteItem_faults (f : fault) (id : string) (w : World) :
  f ≠ NoFault -> deleteItem storeName f id w = (Rejected, w).
Proof. by destruct f. Qed.
End ErrorContract.

(** C8 does not hold of the code.  With the store failing to open, [saveItem]
    resolves and writes nothing, where [deleteItem] rejects; with a failing
    read request, [getAll] rejects instead of returning the empty list (and
    [loadData] then leaves memory as it was).  A product added while the
    store cannot be opened is in memory and not in the store. *)
Theorem store_error_contract_at_faults :
  saveItem products_store OpenFault widget emptyWorld = (Resolved tt, emptyWorld) /\
  deleteItem products_store OpenFault "p1" shop = (Rejected, shop) /\
  result (getAll products_store TxFault) shop = @Rejected (list Product) /\
  products (mem (exec (loadData NoFault TxFault NoFault) (mkWorld initialMem (idb shop) (ls shop)))) = [] /\
  (let w := exec (handleAddProduct OpenFault widget) emptyWorld in
   products (mem w) = [widget] /\ os_products (idb w) = ∅).
Proof. cbv zeta. split_and!; reflexivity. Qed.

(** A reset writes the in-memory categories and products back to the stores:
    from the state above, where memory and store disagree, it changes the
    products store. *)
Example resetEarnings_from_incoherent_state :
  let w := exec (handleAddProduct OpenFault widget) emptyWorld in
  os_products (idb w) = ∅ /\
  os_products (idb (exec (resetEarnings true OwNone) w)) = {[ "p1" := widget ]}.
Proof. split; reflexivity. Qed.

(** * Further properties *)

(** ** The scalar store, the session and the snapshots *)

(** X1: what [getEarnings] reads is never NaN, whatever the slot holds; after
    [saveEarnings] it reads the amount saved, 0 for NaN; [saveEarnings] leaves
    the user slot and the snapshots alone. *)
Theorem earnings_slot_round_trip (n : number) (l : LocalStorage) :
  isNaN (getEarnings l) = false /\
  getEarnings (saveEarnings n l) = (if isNaN n then Num 0 else n) /\
  USER (saveEarnings n l) = USER l /\
  cloud (saveEarnings n l) = cloud l.
Proof.
  split_and!; try reflexivity.
  - unfold getEarnings. by destruct (TOTAL_EARNINGS l) as [[|x]|].
  - unfold getEarnings, saveEarnings. simpl. by destruct n.
Qed.

Lemma cloudKey_eq (a b : string) :
  cloudKey a = cloudKey b <-> toLowerCase a = toLowerCase b.
Proof.
  unfold cloudKey. split; [|by intros ->].
  intros Hk. simpl in Hk. by simplify_eq.
Qed.

(** X2: snapshots are kept per identity, an identity being the email up to
    letter case.  Two emails share a key exactly when they agree once
    lower-cased; a push for one identity leaves what a pull for another
    returns unchanged; and of two pushes for the same identity the pull returns
    the second. *)
Theorem snapshots_are_per_identity :
  (forall a b : string, cloudKey a = cloudKey b <-> toLowerCase a = toLowerCase b) /\
  (forall (now : Z) (pushed other : string) (data : SyncData) (w : World),
     toLowerCase other ≠ toLowerCase pushed ->
     result (fetchFromCloud other) (exec (syncToCloud now pushed data) w) =
     result (fetchFromCloud other) w) /\
  (forall (n1 n2 : Z) (e1 e2 : string) (d1 d2 : SyncData) (w : World),
     toLowerCase e1 = toLowerCase e2 ->
     result (fetchFromCloud e1)
            (exec (syncToCloud n2 e2 d2) (exec (syncToCloud n1 e1 d1) w)) =
     Resolved (Some (payload d2 n2))).
Proof.
  split_and!.
  - apply cloudKey_eq.
  - intros now pushed other data w Hne.
    unfold result, exec, fetchFromCloud, syncToCloud, bind, get_ls, set_ls, ret.
    simpl. rewrite lookup_insert_ne; [done|].
    intros Hk. apply Hne. symmetry. by apply cloudKey_eq.
  - intros n1 n2 e1 e2 d1 d2 w Hcase.
    unfold result, exec, fetchFromCloud, syncToCloud, bind, get_ls, set_ls, ret.
    simpl. apply cloudKey_eq in Hcase. rewrite Hcase. by rewrite lookup_insert_eq.
Qed.

(** X3: a manual sync writes one snapshot and nothing else: memory, the
    structured store, the earnings slot and the user slot are as before, and
    so is every snapshot under another key.  When nobody is signed in it does
    nothing at all. *)
Theorem handleManualSync_frame (now : Z) (w : World) :
  let w' := exec (handleManualSync now) w in
  mem w' = mem w /\ idb w' = idb w /\
  TOTAL_EARNINGS (ls w') = TOTAL_EARNINGS (ls w) /\ USER (ls w') = USER (ls w) /\
  (forall u key, user (mem w) = Some u -> key ≠ cloudKey (email u) ->
                 cloud (ls w') !! key = cloud (ls w) !! key) /\
  (user (mem w) = None -> w' = w).
Proof.
  unfold exec, handleManualSync, bind, get_mem, try_catch, syncToCloud, set_ls, ret.
  simpl. destruct (user (mem w)) as [u|] eqn:Hu; simpl; split_and!; try done.
  intros u' key Heq Hkey. simplify_eq. by rewrite lookup_insert_ne.
Qed.

(** X4: a login that restores nothing, because there is no snapshot for the
    email or because the user declines, only records the user, in memory and
    in the user slot: collections, earnings and stores are untouched, whatever
    the stores would have done. *)
Theorem handleLogin_without_restore (confirmed : bool) (fo : overwrite_fault)
    (fc fp fs : fault) (u : User) (w : World) :
  cloud (ls w) !! cloudKey (email u) = None \/ confirmed = false ->
  handleLogin confirmed fo fc fp fs u w =
    (Resolved tt, mkWorld (setUser (Some u) (mem w)) (idb w) (saveUser u (ls w))).
Proof.
  intros Hno.
  unfold handleLogin, bind, set_mem, set_ls, fetchFromCloud, get_ls, ret. simpl.
  destruct (cloud (ls w) !! cloudKey (email u)) as [cd|] eqn:Hcd; [|done].
  by destruct Hno as [Hnone | ->].
Qed.

Lemma loadData_keeps_user_and_stores (fc fp fs : fault) (w : World) :
  let w' := exec (loadData fc fp fs) w in
  user (mem w') = user (mem w) /\ idb w' = idb w /\ ls w' = ls w /\
  isLoading (mem w') = false.
Proof. destruct fc, fp, fs; split_and!; reflexivity. Qed.

Lemma handleLogin_saves_user (confirmed : bool) (fo : overwrite_fault)
    (fc fp fs : fault) (u : User) (w : World) :
  USER (ls (exec (handleLogin confirmed fo fc fp fs u) w)) = Some u.
Proof.
  unfold exec, handleLogin, bind, set_mem, set_ls, fetchFromCloud, get_ls, ret. simpl.
  destruct (cloud (ls w) !! cloudKey (email u)) as [cd|]; [|done].
  destruct confirmed; [|done].
  destruct fo; simpl; try done.
  match goal with
  | |- USER (ls (loadData fc fp fs ?w0).2) = _ =>
      pose proof (loadData_keeps_user_and_stores fc fp fs w0) as (_ & _ & Hls & _)
  end.
  unfold exec in Hls. simpl in Hls. by rewrite Hls.
Qed.

(** X5: the session survives a page load.  After a login, whatever became of
    the restore that went with it, the next start signs the same user in; after
    a logout it signs nobody in.  This holds whatever the stores do during the
    start. *)
Theorem session_survives_restart (fc fp fs : fault) (n : Nav) (st : option SavedState) :
  (forall (confirmed : bool) (fo : overwrite_fault) (fc' fp' fs' : fault)
          (u : User) (w : World),
     user (mem (world (init fc fp fs
       (mkApp (restart (exec (handleLogin confirmed fo fc' fp' fs' u) w)) n st)))) = Some u) /\
  (forall w : World,
     user (mem (world (init fc fp fs (mkApp (restart (exec handleLogout w)) n st)))) = None).
Proof.
  assert (Hinit : forall w, user (mem (world (init fc fp fs (mkApp (restart w) n st)))) = USER (ls w)).
  { intros w. unfold init, getAppState, getUser. simpl.
    pose proof (loadData_keeps_user_and_stores fc fp fs (restart w)) as (Hu & _ & Hls & _).
    simpl in Hu, Hls. rewrite Hls.
    destruct (USER (ls w)) as [u|] eqn:HU;
      destruct st as [[[v|] ? ?]|]; simpl; try done. }
  split.
  - intros. by rewrite Hinit, handleLogin_saves_user.
  - intros. by rewrite Hinit.
Qed.

(** ** Adding and deleting products and categories *)

Section UpsertFacts.
Context {T : Type} `{HasId T}.

Lemma find_None_not_in (id : string) (l : list T) :
  find (has_id id) l = None <-> id ∉ getId <$> l.
Proof.
  induction l as [|y l IH]; simpl.
  - split; [intros _ Hin; by apply elem_of_nil in Hin | done].
  - unfold has_id at 1. rewrite not_elem_of_cons.
    case_bool_decide as Hy.
    + split; [done | intros [Hne _]; by subst].
    + rewrite IH. split; [intros Hn; split; [congruence | done] | by intros [_ Hn]].
Qed.

Lemma find_upsert_same (x : T) (l : list T) :
  find (has_id (getId x)) (upsert x l) = Some x.
Proof.
  unfold upsert. destruct (find (has_id (getId x)) l) as [y|] eqn:Hf.
  - induction l as [|z l IH]; [done|]. simpl in *.
    destruct (has_id (getId x) z) eqn:Hz; simpl.
    + unfold has_id. by rewrite bool_decide_eq_true_2.
    + rewrite Hz. by apply IH.
  - rewrite find_snoc, Hf. unfold has_id. by rewrite bool_decide_eq_true_2.
Qed.

Lemma find_upsert_other (id : string) (x : T) (l : list T) :
  id ≠ getId x -> find (has_id id) (upsert x l) = find (has_id id) l.
Proof.
  intros Hne. unfold upsert.
  assert (Hx : has_id id x = false) by (apply bool_decide_eq_false; congruence).
  destruct (find (has_id (getId x)) l) as [y|] eqn:Hf.
  - clear Hf. induction l as [|z l IH]; [done|]. simpl.
    destruct (has_id (getId x) z) eqn:Hz.
    + rewrite Hx. apply bool_decide_eq_true in Hz.
      replace (has_id id z) with false
        by (symmetry; apply bool_decide_eq_false; congruence).
      exact IH.
    + destruct (has_id id z); [done | exact IH].
  - rewrite find_snoc, Hx. by destruct (find (has_id id) l).
Qed.

Lemma length_upsert (x : T) (l : list T) :
  length (upsert x l) =
    match find (has_id (getId x)) l with
    | Some _ => length l
    | None => S (length l)
    end.
Proof.
  unfold upsert. destruct (find (has_id (getId x)) l).
  - apply length_map.
  - rewrite length_app. simpl. lia.
Qed.

Lemma ids_upsert (x : T) (l : list T) :
  getId <$> upsert x l =
    match find (has_id (getId x)) l with
    | Some _ => getId <$> l
    | None => ((getId <$> l) ++ [getId x])%list
    end.
Proof.
  unfold upsert. destruct (find (has_id (getId x)) l).
  - induction l as [|z l IH]; [done|]. simpl. f_equal; [|exact IH].
    destruct (has_id (getId x) z) eqn:Hz; [|done].
    by apply bool_decide_eq_true in Hz.
  - by rewrite fmap_app.
Qed.

Lemma upsert_keeps_NoDup (x : T) (l : list T) :
  NoDup (getId <$> l) -> NoDup (getId <$> upsert x l).
Proof.
  intros Hnd. rewrite ids_upsert.
  destruct (find (has_id (getId x)) l) eqn:Hf; [done|].
  apply NoDup_app. split_and!; [done | | apply NoDup_singleton].
  intros id Hin Hx. apply list_elem_of_singleton in Hx. subst.
  by apply find_None_not_in in Hf.
Qed.

Lemma filter_keeps_NoDup (id : string) (l : list T) :
  NoDup (getId <$> l) -> NoDup (getId <$> filter (fun p => getId p ≠ id) l).
Proof.
  intros Hnd. eapply sublist_NoDup; [exact Hnd|].
  apply fmap_sublist, sublist_filter.
Qed.

Lemma find_filter_other (id id' : string) (l : list T) :
  id' ≠ id ->
  find (has_id id') (filter (fun p => getId p ≠ id) l) = find (has_id id') l.
Proof.
  intros Hne. induction l as [|z l IH]; [done|].
  rewrite filter_cons. destruct (decide (getId z ≠ id)) as [Hz|Hz]; simpl.
  - by rewrite IH.
  - rewrite IH. apply dec_stable in Hz.
    replace (has_id id' z) with false; [done|].
    symmetry. apply bool_decide_eq_false. congruence.
Qed.

Lemma find_filter_same (id : string) (l : list T) :
  find (has_id id) (filter (fun p => getId p ≠ id) l) = None.
Proof.
  apply find_None_not_in. intros Hin.
  apply list_elem_of_fmap in Hin as (y & Hy & Hin).
  apply list_elem_of_filter in Hin as [Hne _]. by apply Hne.
Qed.

Lemma filter_absent (id : string) (l : list T) :
  find (has_id id) l = None -> filter (fun p => getId p ≠ id) l = l.
Proof.
  intros Hf. induction l as [|z l IH]; [done|]. simpl in Hf.
  destruct (has_id id z) eqn:Hz; [done|].
  apply bool_decide_eq_false in Hz.
  rewrite filter_cons_True by done. by rewrite IH.
Qed.

Lemma ids_of_records (m : gmap string T) :
  well_keyed m -> getId <$> records m = (map_to_list m).*1.
Proof.
  intros Hm. unfold records. rewrite <- list_fmap_compose.
  apply list_fmap_ext. intros i [k x] Hkx.
  apply list_elem_of_lookup_2, elem_of_map_to_list in Hkx.
  simpl. by apply Hm.
Qed.

Lemma records_ids_unique (m : gmap string T) :
  well_keyed m -> NoDup (getId <$> records m).
Proof. intros Hm. rewrite ids_of_records by done. apply NoDup_fst_map_to_list. Qed.
End UpsertFacts.

Lemma elem_of_records {T} (m : gmap string T) (x : T) :
  x ∈ records m <-> exists k, m !! k = Some x.
Proof.
  unfold records. rewrite list_elem_of_fmap. split.
  - intros ([k y] & -> & Hin). exists k. by apply elem_of_map_to_list.
  - intros (k & Hk). exists (k, x). split; [done | by apply elem_of_map_to_list].
Qed.

(** In a list read from a store, looking a record up by id is looking it up
    in the store. *)
Lemma find_records {T} `{HasId T} (id : string) (m : gmap string T) :
  well_keyed m -> find (has_id id) (records m) = m !! id.
Proof.
  intros Hm. destruct (find (has_id id) (records m)) as [x|] eqn:Hf.
  - apply find_has_id in Hf as [Hid Hin].
    apply elem_of_records in Hin as (k & Hk).
    pose proof (Hm k x Hk) as Hkx. congruence.
  - destruct (m !! id) as [x|] eqn:Hx; [|done].
    apply find_None_not_in in Hf. exfalso. apply Hf.
    apply list_elem_of_fmap. exists x. split.
    + symmetry. by apply Hm.
    + apply elem_of_records. by exists id.
Qed.

(** X6: after adding or editing a product with the store working, the product
    is what a lookup by its id gives, in memory and in the products store;
    lookups by any other id give what they gave before; and the in-memory list
    keeps its length on an edit and grows by one on an addition. *)
Theorem handleAddProduct_then_lookup (prod : Product) (w : World) :
  let w' := exec (handleAddProduct NoFault prod) w in
  lookup_product (p_id prod) w' = Some prod /\
  os_products (idb w') !! p_id prod = Some prod /\
  (forall id, id ≠ p_id prod ->
     lookup_product id w' = lookup_product id w /\
     os_products (idb w') !! id = os_products (idb w) !! id) /\
  length (products (mem w')) =
    match lookup_product (p_id prod) w with
    | Some _ => length (products (mem w))
    | None => S (length (products (mem w)))
    end.
Proof.
  unfold lookup_product. simpl. split_and!.
  - apply (find_upsert_same prod).
  - apply lookup_insert_eq.
  - intros id Hne. split.
    + by apply (find_upsert_other id prod).
    + by apply lookup_insert_ne.
  - apply (length_upsert prod).
Qed.

Lemma handleAddProduct_then_lookup_witness :
  lookup_product "p1" (exec (handleAddProduct NoFault (mkProduct "p2" "Bolt" "3" 4 "c1" "" "")) shop)
  = lookup_product "p1" shop.
Proof.
  destruct (handleAddProduct_then_lookup (mkProduct "p2" "Bolt" "3" 4 "c1" "" "") shop)
    as (_ & _ & Hother & _).
  apply Hother. discriminate.
Defined.

(** X7: what a failing write does to an addition or an edit.  When the write
    transaction fails the call rejects and nothing has changed, in memory or in
    the store.  When the store cannot be opened the call resolves, the product
    is in memory and the store is as before, so that the next start, loading
    from a store whose records sit under their ids, shows the product as the
    store had it: absent if it was new, in its old version if it was edited. *)
Theorem handleAddProduct_failing_write :
  (forall (prod : Product) (w : World),
     handleAddProduct TxFault prod w = (Rejected, w)) /\
  (forall (cat : Category) (w : World),
     handleAddCategory TxFault cat w = (Rejected, w)) /\
  (forall (prod : Product) (w : World),
     let w' := exec (handleAddProduct OpenFault prod) w in
     result (handleAddProduct OpenFault prod) w = Resolved tt /\
     lookup_product (p_id prod) w' = Some prod /\
     idb w' = idb w /\
     (well_keyed (os_products (idb w)) ->
      lookup_product (p_id prod) (exec (loadData NoFault NoFault NoFault) (restart w')) =
      os_products (idb w) !! p_id prod)).
Proof.
  split_and!; try reflexivity.
  intros prod w. simpl. split_and!; try reflexivity.
  - apply (find_upsert_same prod).
  - intros Hm. unfold lookup_product. simpl. by apply find_records.
Qed.

Lemma handleAddProduct_failing_write_witness :
  lookup_product "p1" (exec (loadData NoFault NoFault NoFault)
                         (restart (exec (handleAddProduct OpenFault widget) emptyWorld))) = None.
Proof.
  destruct handleAddProduct_failing_write as (_ & _ & Hopen).
  destruct (Hopen widget emptyWorld) as (_ & _ & _ & Hlost).
  exact (Hlost well_keyed_empty).
Defined.

Ltac run :=
  unfold exec, result, try_catch, try_return, bind, ret, throw, get_mem, set_mem,
    get_idb, set_idb, get_ls, set_ls, openDB, transaction, deleteItem, saveItem;
  simpl.

Lemma products_filter_absent (id : string) (prods : list Product) :
  find (has_id id) prods = None -> filter (fun p => p_id p ≠ id) prods = prods.
Proof. exact (filter_absent id prods). Qed.

(** X8: deleting a product.  Confirmed and with the store working, the id is
    gone from memory and from the products store, lookups by any other id are
    as before, and a second deletion changes nothing more; deleting an id that
    is nowhere changes nothing.  Declined, or with the store failing, the call
    still resolves and the world is as it was. *)
Theorem handleDeleteProduct_spec (id : string) (w : World) :
  let w' := exec (handleDeleteProduct true NoFault id) w in
  (lookup_product id w' = None /\ os_products (idb w') !! id = None) /\
  (forall id', id' ≠ id ->
     lookup_product id' w' = lookup_product id' w /\
     os_products (idb w') !! id' = os_products (idb w) !! id') /\
  exec (handleDeleteProduct true NoFault id) w' = w' /\
  (lookup_product id w = None -> os_products (idb w) !! id = None -> w' = w) /\
  (forall f, handleDeleteProduct false f id w = (Resolved tt, w)) /\
  (forall f, f ≠ NoFault -> handleDeleteProduct true f id w = (Resolved tt, w)).
Proof.
  unfold lookup_product. simpl. split_and!.
  - apply (find_filter_same (T := Product)).
  - apply lookup_delete_eq.
  - intros id' Hne. split.
    + by apply (find_filter_other (T := Product)).
    + by apply lookup_delete_ne.
  - unfold handleDeleteProduct. run.
    rewrite delete_delete_eq.
    rewrite (products_filter_absent id); [done|].
    apply find_after_removal.
  - intros Hmem Hstore. run.
    rewrite (products_filter_absent id) by done.
    rewrite delete_id by done. by destruct w as [[] [] ?].
  - done.
  - by intros [] Hf.
Qed.

Lemma handleDeleteProduct_spec_witness :
  exec (handleDeleteProduct true NoFault "p9") shop = shop /\
  handleDeleteProduct true TxFault "p1" shop = (Resolved tt, shop).
Proof.
  destruct (handleDeleteProduct_spec "p9" shop) as (_ & _ & _ & Habsent & _).
  destruct (handleDeleteProduct_spec "p1" shop) as (_ & _ & _ & _ & _ & Hfail).
  split; [by apply Habsent | by apply Hfail].
Defined.

(** X9: additions, edits and deletions never touch the sales or the earnings:
    the sales log and the earnings in memory, the sales store and the whole
    of localStorage are as before, whatever the store does; the history of
    sales survives the deletion of the product sold. *)
Theorem inventory_edits_keep_sales_and_earnings (f : fault) (w : World) :
  let untouched (w' : World) :=
    sales (mem w') = sales (mem w) /\ totalEarnings (mem w') = totalEarnings (mem w) /\
    os_sales (idb w') = os_sales (idb w) /\ ls w' = ls w /\ user (mem w') = user (mem w) in
  (forall prod, untouched (exec (handleAddProduct f prod) w)) /\
  (forall cat, untouched (exec (handleAddCategory f cat) w)) /\
  (forall confirmed id, untouched (exec (handleDeleteProduct confirmed f id) w)).
Proof.
  cbv zeta. split_and!.
  - intros prod. by destruct f.
  - intros cat. by destruct f.
  - intros [] id; by destruct f.
Qed.

(** ** Loading *)

Lemma or_else_not_NaN (n : number) : isNaN n = false -> or_else n (Num 0) = n.
Proof.
  destruct n as [|x]; [done|]. intros _. unfold or_else, falsy.
  case_bool_decide; by subst.
Qed.

Lemma loaded_earnings (l : LocalStorage) : or_else (getEarnings l) (Num 0) = getEarnings l.
Proof.
  apply or_else_not_NaN. unfold getEarnings.
  by destruct (TOTAL_EARNINGS l) as [[|x]|].
Qed.

Lemma loadData_cases (fc fp fs : fault) (w : World) :
  let w' := exec (loadData fc fp fs) w in
  (result (loadData fc fp fs) w = Resolved tt /\ isLoading (mem w') = false /\
   idb w' = idb w /\ ls w' = ls w /\ user (mem w') = user (mem w)) /\
  (fc = TxFault \/ fp = TxFault \/ fs = TxFault ->
   categories (mem w') = categories (mem w) /\ products (mem w') = products (mem w) /\
   sales (mem w') = sales (mem w) /\ totalEarnings (mem w') = totalEarnings (mem w) /\
   dataLoadedSuccessfully (mem w') = dataLoadedSuccessfully (mem w)) /\
  (fc ≠ TxFault -> fp ≠ TxFault -> fs ≠ TxFault ->
   dataLoadedSuccessfully (mem w') = true /\
   categories (mem w') = read_or_empty fc (records (os_categories (idb w))) /\
   products (mem w') = read_or_empty fp (records (os_products (idb w))) /\
   sales (mem w') =
     sort_by_timestamp_desc (read_or_empty fs (records (os_sales (idb w)))) /\
   totalEarnings (mem w') = getEarnings (ls w)).
Proof.
  cbv zeta. split; [|split].
  - by destruct fc, fp, fs.
  - intros Htx.
    destruct fc, fp, fs; try (split_and!; reflexivity);
      destruct Htx as [? | [? | ?]]; discriminate.
  - intros Hc Hp Hs.
    destruct fc, fp, fs; try done; simpl; rewrite loaded_earnings;
      split_and!; reflexivity.
Qed.

(** X10: every load resolves, ends with [isLoading] false, and never writes to
    the stores.  If one of its reads rejects, the collections, the earnings and
    the loaded flag in memory stay as they were.  Otherwise the flag is set,
    the earnings are those of the scalar store, and each collection is what
    its store holds, or empty when that store could not be opened. *)
Theorem loadData_outcomes (fc fp fs : fault) (w : World) :
  let w' := exec (loadData fc fp fs) w in
  (result (loadData fc fp fs) w = Resolved tt /\ isLoading (mem w') = false /\
   idb w' = idb w /\ ls w' = ls w /\ user (mem w') = user (mem w)) /\
  (fc = TxFault \/ fp = TxFault \/ fs = TxFault ->
   categories (mem w') = categories (mem w) /\ products (mem w') = products (mem w) /\
   sales (mem w') = sales (mem w) /\ totalEarnings (mem w') = totalEarnings (mem w) /\
   dataLoadedSuccessfully (mem w') = dataLoadedSuccessfully (mem w)) /\
  (fc ≠ TxFault -> fp ≠ TxFault -> fs ≠ TxFault ->
   dataLoadedSuccessfully (mem w') = true /\
   categories (mem w') = read_or_empty fc (records (os_categories (idb w))) /\
   products (mem w') = read_or_empty fp (records (os_products (idb w))) /\
   sales (mem w') =
     sort_by_timestamp_desc (read_or_empty fs (records (os_sales (idb w)))) /\
   totalEarnings (mem w') = getEarnings (ls w)).
Proof.
  cbv zeta. split; [|split].
  - by destruct fc, fp, fs.
  - intros Htx.
    destruct fc, fp, fs; try (split_and!; reflexivity);
      destruct Htx as [? | [? | ?]]; discriminate.
  - intros Hc Hp Hs.
    destruct fc, fp, fs; try done; simpl; rewrite loaded_earnings;
      split_and!; reflexivity.
Qed.

Lemma loadData_outcomes_witness :
  products (mem (exec (loadData NoFault TxFault NoFault) shop)) = products (mem shop) /\
  products (mem (exec (loadData NoFault OpenFault NoFault) shop)) = [] /\
  products (mem (exec (loadData OpenFault NoFault NoFault) shop)) = [widget].
Proof.
  destruct (loadData_outcomes NoFault TxFault NoFault shop) as (_ & Hrej & _).
  destruct (loadData_outcomes NoFault OpenFault NoFault shop) as (_ & _ & Hsoft).
  destruct (loadData_outcomes OpenFault NoFault NoFault shop) as (_ & _ & Hother).
  destruct Hrej as (_ & Hp1 & _); [by right; left|].
  destruct Hsoft as (_ & _ & Hp2 & _); try discriminate.
  destruct Hother as (_ & _ & Hp3 & _); try discriminate.
  split; [exact Hp1|]. split; [exact Hp2|]. rewrite Hp3. reflexivity.
Defined.

Lemma insert_by_timestamp_elem (s x : SaleRecord) (l : list SaleRecord) :
  x ∈ insert_by_timestamp s l -> x = s \/ x ∈ l.
Proof.
  intros Hin. rewrite insert_by_timestamp_perm in Hin.
  by apply elem_of_cons in Hin.
Qed.

Lemma insert_by_timestamp_sorted (s : SaleRecord) (l : list SaleRecord) :
  newest_first l -> newest_first (insert_by_timestamp s l).
Proof.
  unfold newest_first. induction 1 as [|x l Hl IH Hx]; simpl.
  - apply SSorted_cons; [apply SSorted_nil | constructor].
  - case_bool_decide as Hle.
    + apply SSorted_cons; [by apply SSorted_cons|].
      constructor; [done|].
      eapply Forall_impl; [exact Hx|]. simpl. intros y Hy. lia.
    + apply SSorted_cons; [exact IH|].
      apply Forall_forall. intros y Hy.
      apply insert_by_timestamp_elem in Hy as [->|Hy]; [lia|].
      rewrite Forall_forall in Hx. by apply Hx.
Qed.

Lemma sort_by_timestamp_desc_sorted (l : list SaleRecord) :
  newest_first (sort_by_timestamp_desc l).
Proof.
  induction l as [|s l IH]; simpl; [apply SSorted_nil|].
  by apply insert_by_timestamp_sorted.
Qed.

Lemma sort_by_timestamp_desc_fixed (l : list SaleRecord) :
  newest_first l -> sort_by_timestamp_desc l = l.
Proof.
  unfold newest_first. induction 1 as [|x l Hl IH Hx]; [done|].
  simpl. rewrite IH. destruct l as [|y l']; [done|]. simpl.
  apply Forall_cons in Hx as [Hy _]. by rewrite bool_decide_eq_true_2.
Qed.

(** X11: the in-memory sales log is most recent first.  A load sorts it so,
    leaving a log that is already in that order exactly as the store listed
    it; and a sale keeps it so whenever its clock reading is not older than
    the sales already logged, whatever the stores do. *)
Theorem sales_log_newest_first :
  (forall (fc fp fs : fault) (w : World),
     fc ≠ TxFault -> fp ≠ TxFault -> fs ≠ TxFault ->
     newest_first (sales (mem (exec (loadData fc fp fs) w)))) /\
  (forall l : list SaleRecord, newest_first l -> sort_by_timestamp_desc l = l) /\
  (forall (c : SaleCall) (w : World),
     newest_first (sales (mem w)) ->
     Forall (fun s => timestamp s <= sc_now_ts c) (sales (mem w)) ->
     newest_first (sales (mem (recordSale c w)))).
Proof.
  split_and!.
  - intros fc fp fs w Hc Hp Hs.
    destruct (loadData_cases fc fp fs w) as (_ & _ & Hok).
    destruct (Hok Hc Hp Hs) as (_ & _ & _ & -> & _).
    apply sort_by_timestamp_desc_sorted.
  - apply sort_by_timestamp_desc_fixed.
  - intros c w Hsorted Hclock.
    destruct (lookup_product (sc_productId c) w) as [product|] eqn:Hf.
    + assert (Hcases : sc_f_sale c = TxFault \/ sc_f_sale c ≠ TxFault)
        by (destruct (sc_f_sale c); [right | right | left]; done).
      destruct Hcases as [Htx|Hne].
      * destruct c as [f1 f2 n1 n2 id q pr]. simpl in Htx. subst f1.
        run_sale Hf. exact Hsorted.
      * destruct (recordSale_earnings c w product Hf Hne) as (_ & _ & ->).
        by apply SSorted_cons.
    + by rewrite recordSale_skips_unknown.
Qed.

Lemma sales_log_newest_first_witness :
  let imported := exec (loadData NoFault NoFault NoFault)
                       (exec (handleImport true OwNone backup) emptyWorld) in
  newest_first (sales (mem imported)) /\
  sort_by_timestamp_desc [second_sale; first_sale] = [second_sale; first_sale] /\
  newest_first (sales (mem (recordSale (sale 3000 "p1" 1 100) imported))).
Proof.
  destruct sales_log_newest_first as (Hload & Hfixed & Hsale).
  intros imported.
  assert (Hlog : sales (mem imported) = [second_sale; first_sale])
    by (vm_compute; reflexivity).
  assert (Hs : newest_first [second_sale; first_sale]).
  { repeat constructor. simpl. lia. }
  split; [apply Hload; discriminate|].
  split; [exact (Hfixed _ Hs)|].
  apply Hsale; rewrite Hlog; [exact Hs|].
  repeat constructor; simpl; lia.
Defined.

(** ** Overwriting, importing and resetting under failure *)

(** X12: [overwriteLocalData] has no handler of its own.  If the store cannot
    be opened it rejects with nothing changed.  If a [clear()] fails its
    promise never settles and nothing has changed.  If the transaction aborts
    after the writes were requested its promise never settles either, and the
    structured store is as before while the earnings slot already holds the
    new amount.  In all three cases an import leaves the in-memory state as
    it was. *)
Theorem overwriteLocalData_failures
    (cats : list Category) (prods : list Product) (e : number)
    (sls : list SaleRecord) (w : World) :
  overwriteLocalData OwOpen cats prods e sls w = (Rejected, w) /\
  overwriteLocalData OwClear cats prods e sls w = (Pending, w) /\
  overwriteLocalData OwAbort cats prods e sls w =
    (Pending, mkWorld (mem w) (idb w) (saveEarnings e (ls w))) /\
  (forall data,
     mem (exec (handleImport true OwOpen data) w) = mem w /\
     mem (exec (handleImport true OwClear data) w) = mem w /\
     mem (exec (handleImport true OwAbort data) w) = mem w).
Proof.
  split_and!; try reflexivity.
  unfold overwriteLocalData. run. by destruct w as [? [] ?].
Qed.

(** X13: importing.  A declined import does nothing.  A collection missing
    from the file is emptied, in memory and in its store.  The earnings are
    the file's [earnings] unless that is missing or 0, then its
    [totalEarnings], then 0; memory and the earnings slot get the same
    amount. *)
Theorem handleImport_defaults (data : ImportData) (w : World) :
  let w' := exec (handleImport true OwNone data) w in
  (forall f, handleImport false f data w = (Resolved tt, w)) /\
  (i_categories data = None -> categories (mem w') = [] /\ os_categories (idb w') = ∅) /\
  (i_products data = None -> products (mem w') = [] /\ os_products (idb w') = ∅) /\
  (i_sales data = None -> sales (mem w') = [] /\ os_sales (idb w') = ∅) /\
  (forall x, i_earnings data = Some x -> x ≠ 0%Qc -> totalEarnings (mem w') = Num x) /\
  (i_earnings data = None \/ i_earnings data = Some 0%Qc ->
   totalEarnings (mem w') = Num (default 0%Qc (i_totalEarnings data))) /\
  getEarnings (ls w') = totalEarnings (mem w').
Proof.
  cbv zeta. rewrite handleImport_from_bundle. cbv zeta. simpl. split_and!.
  - done.
  - by intros ->.
  - by intros ->.
  - by intros ->.
  - intros x -> Hx. simpl. by rewrite bool_decide_eq_false_2.
  - intros [-> | ->]; simpl; f_equal;
      destruct (i_totalEarnings data) as [y|]; simpl; try done;
      case_bool_decide; by subst.
  - reflexivity.
Qed.

Lemma handleImport_defaults_witness :
  let w' := exec (handleImport true OwNone empty_file) shop in
  products (mem w') = [] /\ os_products (idb w') = ∅ /\
  totalEarnings (mem w') = Num 0 /\
  totalEarnings (mem (exec (handleImport true OwNone backup) shop)) = Num (Qc_of_Z 500).
Proof.
  destruct (handleImport_defaults empty_file shop) as (_ & _ & Hp & _ & _ & He & _).
  destruct (handleImport_defaults backup shop) as (_ & _ & _ & _ & Hx & _).
  cbv zeta in *. destruct (Hp eq_refl) as [H1 H2].
  split; [exact H1|]. split; [exact H2|]. split; [exact (He (or_introl eq_refl))|].
  apply Hx; [reflexivity|]. intros Heq. apply (f_equal this) in Heq. discriminate.
Defined.

(** X14: a reset that is declined does nothing.  A confirmed reset whose
    overwrite fails still resolves, with the earnings 0 and the sales empty in
    memory and the earnings slot at 0, but with the structured store as it
    was: the next start shows the old sales again, next to earnings of 0. *)
Theorem resetEarnings_failing (w : World) :
  (forall fo, resetEarnings false fo w = (Resolved tt, w)) /\
  (forall fo, fo ≠ OwNone ->
     let w' := exec (resetEarnings true fo) w in
     result (resetEarnings true fo) w = Resolved tt /\
     totalEarnings (mem w') = Num 0 /\ sales (mem w') = [] /\
     getEarnings (ls w') = Num 0 /\ idb w' = idb w /\
     let again := exec (loadData NoFault NoFault NoFault) (restart w') in
     sales (mem again) = sort_by_timestamp_desc (records (os_sales (idb w))) /\
     totalEarnings (mem again) = Num 0).
Proof.
  split; [done|]. intros fo Hfo.
  destruct fo; try done; cbv zeta; split_and!; try reflexivity;
    unfold resetEarnings, overwriteLocalData, detached; run; by destruct w as [? [] ?].
Qed.

Lemma resetEarnings_failing_witness :
  let sold := recordSale (sale 1000 "p1" 2 100) shop in
  let w' := exec (resetEarnings true OwOpen) sold in
  sales (mem w') = [] /\
  length (sales (mem (exec (loadData NoFault NoFault NoFault) (restart w')))) = 1%nat.
Proof.
  destruct (resetEarnings_failing (recordSale (sale 1000 "p1" 2 100) shop)) as [_ Hfail].
  destruct (Hfail OwOpen ltac:(discriminate)) as (_ & _ & Hs & _ & _ & Hagain & _).
  cbv zeta in *. split; [exact Hs|]. rewrite Hagain. reflexivity.
Defined.

(** ** Sales: what a sale leaves alone, and what a failing one leaves behind *)

(** Everything a sale never touches, whatever the stores do. *)
Lemma recordSale_frame_cases (c : SaleCall) (w : World) :
  let w' := recordSale c w in
  categories (mem w') = categories (mem w) /\ user (mem w') = user (mem w) /\
  os_categories (idb w') = os_categories (idb w) /\
  USER (ls w') = USER (ls w) /\ cloud (ls w') = cloud (ls w).
Proof.
  destruct (lookup_product (sc_productId c) w) as [product|] eqn:Hf.
  - destruct c as [f1 f2 n1 n2 id q pr]. run_sale Hf.
    destruct f1, f2; simpl; try case_bool_decide; simpl; done.
  - simpl. by rewrite recordSale_skips_unknown.
Qed.

Lemma recordSale_other_products (c : SaleCall) (w : World) (id : string) :
  id ≠ sc_productId c ->
  lookup_product id (recordSale c w) = lookup_product id w /\
  os_products (idb (recordSale c w)) !! id = os_products (idb w) !! id.
Proof.
  intros Hne.
  destruct (lookup_product (sc_productId c) w) as [product|] eqn:Hf.
  - pose proof (find_has_id _ _ _ Hf) as [Hid _].
    change (getId product) with (p_id product) in Hid.
    assert (Hne' : id ≠ p_id product) by congruence.
    assert (Hupd : forall u prods, p_id u = p_id product ->
              find (has_id id)
                (map (fun p => if bool_decide (p_id p = p_id product) then u else p) prods)
              = find (has_id id) prods).
    { intros u prods Hu. induction prods as [|z prods IH]; [done|]. simpl.
      case_bool_decide as Hz.
      - replace (has_id id u) with false
          by (symmetry; apply bool_decide_eq_false; unfold getId, Product_HasId; congruence).
        replace (has_id id z) with false
          by (symmetry; apply bool_decide_eq_false; unfold getId, Product_HasId; congruence).
        exact IH.
      - destruct (has_id id z); [done | exact IH]. }
    destruct c as [f1 f2 n1 n2 pid q pr]. simpl in Hne. run_sale Hf.
    pose proof (fun prods => find_filter_other (T := Product) (p_id product) id prods Hne')
      as Hfil.
    unfold getId, Product_HasId in Hfil.
    destruct f1, f2; simpl; try case_bool_decide; simpl;
      unfold getId, Product_HasId; simpl;
      rewrite ?Hupd by done;
      rewrite ?Hfil;
      rewrite ?lookup_insert_ne by congruence;
      rewrite ?lookup_delete_ne by congruence; done.
  - by rewrite recordSale_skips_unknown.
Qed.

(** X15: a sale concerns one product.  Whatever the quantity, the price and
    the behaviour of the stores, it leaves the categories (in memory and in
    their store), the signed-in user, the user slot and the snapshots as they
    were, and a lookup of any other product id, in memory or in the products
    store, gives what it gave before. *)
Theorem recordSale_frame (c : SaleCall) (w : World) :
  let w' := recordSale c w in
  (categories (mem w') = categories (mem w) /\ user (mem w') = user (mem w) /\
   os_categories (idb w') = os_categories (idb w) /\
   USER (ls w') = USER (ls w) /\ cloud (ls w') = cloud (ls w)) /\
  (forall id, id ≠ sc_productId c ->
     lookup_product id w' = lookup_product id w /\
     os_products (idb w') !! id = os_products (idb w) !! id).
Proof.
  split; [apply recordSale_frame_cases|].
  intros id Hne. by apply recordSale_other_products.
Qed.

Lemma recordSale_frame_witness :
  lookup_product "p2" (recordSale (sale 1000 "p1" 2 100) shop) = lookup_product "p2" shop.
Proof.
  destruct (recordSale_frame (sale 1000 "p1" 2 100) shop) as [_ Hother].
  apply Hother. discriminate.
Defined.



(** X17: sales never lower the earnings in memory.  With a unit price and a
    quantity that are not negative, the earnings in memory after a sale are a
    number that is at least the earnings before, whatever the stores do.  The
    earnings slot follows memory: a sale leaves the scalar store as it was or
    sets the slot to the new amount in memory, so a slot that agreed with
    memory before the sale agrees with it after. *)
Theorem earnings_never_decrease (c : SaleCall) (w : World) (before : Qc) :
  totalEarnings (mem w) = Num before ->
  (0 <= sc_price c)%Qc ->
  0 <= sc_quantity c ->
  exists after : Qc,
    totalEarnings (mem (recordSale c w)) = Num after /\
    (before <= after)%Qc /\
    (ls (recordSale c w) = ls w \/ getEarnings (ls (recordSale c w)) = Num after) /\
    (getEarnings (ls w) = Num before -> getEarnings (ls (recordSale c w)) = Num after).
Proof.
  intros Hm Hprice Hq.
  assert (Hamount : (0 <= sale_amount c)%Qc).
  { apply Qcmult_nonneg_nonneg; [done|].
    rewrite <- Z2Qc_inj_0. exact (proj1 (Z2Qc_inj_le 0 (sc_quantity c)) Hq). }
  assert (Hsame : exists after, totalEarnings (mem w) = Num after /\
                    (before <= after)%Qc /\
                    (ls w = ls w \/ getEarnings (ls w) = Num after) /\
                    (getEarnings (ls w) = Num before -> getEarnings (ls w) = Num after)).
  { exists before. split_and!; [done | apply Qcle_refl | by left | done]. }
  destruct (lookup_product (sc_productId c) w) as [product|] eqn:Hf.
  - assert (Hcases : sc_f_sale c = TxFault \/ sc_f_sale c ≠ TxFault)
      by (destruct (sc_f_sale c); [right | right | left]; done).
    destruct Hcases as [Htx|Hne].
    + destruct c as [f1 f2 n1 n2 id q pr]. simpl in Htx. subst f1.
      run_sale Hf. exact Hsame.
    + destruct (recordSale_earnings c w product Hf Hne) as (Hm' & Hs' & _).
      exists (current_earnings w + sale_amount c)%Qc.
      split_and!; [done | | right; by apply getEarnings_saved |
                   intros _; by apply getEarnings_saved].
      unfold current_earnings. rewrite Hm.
      rewrite <- (Qcplus_0_r before) at 1.
      by apply Qcplus_le_mono_l.
  - rewrite recordSale_skips_unknown by done. exact Hsame.
Qed.

Lemma earnings_never_decrease_witness :
  exists after : Qc,
    totalEarnings (mem (recordSale (sale 1000 "p1" 2 100) shop)) = Num after /\
    (0 <= after)%Qc /\
    getEarnings (ls (recordSale (sale 1000 "p1" 2 100) shop)) = Num after.
Proof.
  destruct (earnings_never_decrease (sale 1000 "p1" 2 100) shop 0%Qc)
    as (after & Hmem & Hle & _ & Hslot).
  - reflexivity.
  - simpl. rewrite <- Z2Qc_inj_0. apply (proj1 (Z2Qc_inj_le 0 100)). lia.
  - simpl. lia.
  - exists after. split_and!; [exact Hmem | exact Hle | apply Hslot; reflexivity].
Defined.

(** The slot itself can go down.  An import whose transaction never completes
    has written the earnings of the file to the slot and left memory as it
    was; the next sale sets the slot to the amount in memory. *)
Example sale_after_unfinished_import :
  let w := exec (handleImport true OwAbort backup) shop in
  getEarnings (ls w) = Num (Qc_of_Z 500) /\
  totalEarnings (mem w) = Num 0 /\
  getEarnings (ls (recordSale (sale 1000 "p1" 1 100) w)) = Num (Qc_of_Z 100).
Proof. vm_compute. split_and!; f_equal; by apply Qc_is_canon. Qed.

(** ** Invariants of memory and of the stores *)

Lemma recordSale_ids_unique (c : SaleCall) (w : World) :
  ids_unique w -> ids_unique (recordSale c w).
Proof.
  intros [Hc Hp]. split.
  - destruct (recordSale_frame_cases c w) as (-> & _). exact Hc.
  - destruct (lookup_product (sc_productId c) w) as [product|] eqn:Hf.
    + destruct (recordSale_products c w product Hf) as [-> | [-> | [_ ->]]].
      * exact Hp.
      * apply (filter_keeps_NoDup (T := Product)). exact Hp.
      * assert (Hids : forall prods,
                  p_id <$> map (fun p => if bool_decide (p_id p = p_id product)
                                         then with_quantity product
                                                (quantity product - sc_quantity c)
                                         else p) prods = p_id <$> prods).
        { induction prods as [|z prods IH]; [done|]. simpl. f_equal; [|exact IH].
          by case_bool_decide. }
        by rewrite Hids.
    + by rewrite recordSale_skips_unknown.
Qed.

(** X18: ids stay unique in memory.  If the categories and the products in
    memory have pairwise distinct ids, they still have after an addition or
    an edit, a deletion, and a sale, whatever the stores do; and a load from
    stores whose records sit under their ids produces such a state. *)
Theorem ids_stay_unique :
  (forall (f : fault) (prod : Product) (w : World),
     ids_unique w -> ids_unique (exec (handleAddProduct f prod) w)) /\
  (forall (f : fault) (cat : Category) (w : World),
     ids_unique w -> ids_unique (exec (handleAddCategory f cat) w)) /\
  (forall (confirmed : bool) (f : fault) (id : string) (w : World),
     ids_unique w -> ids_unique (exec (handleDeleteProduct confirmed f id) w)) /\
  (forall (c : SaleCall) (w : World),
     ids_unique w -> ids_unique (recordSale c w)) /\
  (forall (fc fp fs : fault) (w : World),
     fc ≠ TxFault -> fp ≠ TxFault -> fs ≠ TxFault ->
     stores_well_keyed (idb w) -> ids_unique (exec (loadData fc fp fs) w)).
Proof.
  split_and!.
  - intros f prod w [Hc Hp]. destruct f; split; simpl; try done;
      by apply (upsert_keeps_NoDup prod).
  - intros f cat w [Hc Hp]. destruct f; split; simpl; try done;
      by apply (upsert_keeps_NoDup cat).
  - intros [] f id w [Hc Hp]; [|done]. destruct f; split; simpl; try done.
    by apply (filter_keeps_NoDup (T := Product)).
  - apply recordSale_ids_unique.
  - intros fc fp fs w Hc Hp Hs (Hkc & Hkp & _).
    destruct (loadData_cases fc fp fs w) as (_ & _ & Hok).
    destruct (Hok Hc Hp Hs) as (_ & Hcats & Hprods & _).
    split; [rewrite Hcats | rewrite Hprods].
    + destruct fc; simpl; try apply NoDup_nil_2; by apply records_ids_unique.
    + destruct fp; simpl; try apply NoDup_nil_2; by apply records_ids_unique.
Qed.

Lemma shop_ids_unique : ids_unique shop.
Proof. split; simpl; [apply NoDup_nil_2 | apply NoDup_singleton]. Qed.

Lemma ids_stay_unique_witness :
  ids_unique (recordSale (sale 1000 "p1" 2 100)
                (exec (handleAddProduct NoFault (with_quantity widget 7)) shop)).
Proof.
  destruct ids_stay_unique as (Hadd & _ & _ & Hsale & _).
  apply Hsale, Hadd, shop_ids_unique.
Defined.


Lemma shop_well_keyed : stores_well_keyed (idb shop).
Proof.
  split_and!; simpl; try apply well_keyed_empty.
  apply (well_keyed_insert widget), well_keyed_empty.
Qed.


Lemma recordSale_well_keyed (c : SaleCall) (w : World) :
  stores_well_keyed (idb w) -> stores_well_keyed (idb (recordSale c w)).
Proof.
  intros (Hc & Hp & Hs).
  destruct (lookup_product (sc_productId c) w) as [product|] eqn:Hf.
  - destruct c as [f1 f2 n1 n2 id q pr]. run_sale Hf.
    destruct f1, f2; simpl; try case_bool_decide; simpl; split_and!; try done;
      try (by apply well_keyed_delete);
      try (by apply (well_keyed_insert (T := Product)));
      by apply (well_keyed_insert (T := SaleRecord)).
  - by rewrite recordSale_skips_unknown.
Qed.

Lemma overwrite_well_keyed (fo : overwrite_fault) cats prods e sls (w : World) :
  stores_well_keyed (idb w) ->
  stores_well_keyed (idb (exec (overwriteLocalData fo cats prods e sls) w)).
Proof.
  intros Hw. destruct fo; try (by destruct w as [? [] ?]).
  split_and!; apply well_keyed_put_all, well_keyed_empty.
Qed.

(** X20: every record in a store sits under its own id, and stays there.  If
    this holds of the three stores it holds after an addition or an edit, a
    deletion, a sale, an import, a reset, a login (with or without restore)
    and a load, whatever faults the stores meet. *)
Theorem stores_stay_well_keyed (w : World) :
  stores_well_keyed (idb w) ->
  (forall f prod, stores_well_keyed (idb (exec (handleAddProduct f prod) w))) /\
  (forall f cat, stores_well_keyed (idb (exec (handleAddCategory f cat) w))) /\
  (forall confirmed f id,
     stores_well_keyed (idb (exec (handleDeleteProduct confirmed f id) w))) /\
  (forall c, stores_well_keyed (idb (recordSale c w))) /\
  (forall confirmed fo data,
     stores_well_keyed (idb (exec (handleImport confirmed fo data) w))) /\
  (forall confirmed fo, stores_well_keyed (idb (exec (resetEarnings confirmed fo) w))) /\
  (forall confirmed fo fc fp fs u,
     stores_well_keyed (idb (exec (handleLogin confirmed fo fc fp fs u) w))) /\
  (forall fc fp fs, stores_well_keyed (idb (exec (loadData fc fp fs) w))).
Proof.
  intros Hw. pose proof Hw as (Hc & Hp & Hs). split_and!.
  - intros f prod. destruct f; try done.
    split_and!; try done. by apply (well_keyed_insert (T := Product)).
  - intros f cat. destruct f; try done.
    split_and!; try done. by apply (well_keyed_insert (T := Category)).
  - intros [] f id; [|done]. destruct f; try done.
    split_and!; try done. by apply well_keyed_delete.
  - intros c. by apply recordSale_well_keyed.
  - intros [] fo data; [|done].
    destruct fo; try (by destruct w as [? [] ?]).
    split_and!; apply well_keyed_put_all, well_keyed_empty.
  - intros [] fo; [|done].
    destruct fo; try (by destruct w as [? [] ?]).
    split_and!; apply well_keyed_put_all, well_keyed_empty.
  - intros confirmed fo fc fp fs u.
    unfold handleLogin. run.
    destruct (cloud (ls w) !! cloudKey (email u)) as [cd|]; [|done].
    destruct confirmed; [|done].
    destruct fo; simpl; try (by destruct w as [? [] ?]).
    match goal with
    | |- stores_well_keyed (idb (loadData fc fp fs ?w0).2) =>
        destruct (loadData_cases fc fp fs w0) as ((_ & _ & Hidb & _) & _)
    end.
    unfold exec in Hidb. rewrite Hidb. simpl.
    split_and!; apply well_keyed_put_all, well_keyed_empty.
  - intros fc fp fs. destruct (loadData_cases fc fp fs w) as ((_ & _ & -> & _) & _).
    exact Hw.
Qed.

Lemma lookup_put_all {T} `{HasId T} (l : list T) (m : gmap string T) (k : string) :
  put_all l m !! k =
    match last_with_id k l with
    | Some x => Some x
    | None => m !! k
    end.
Proof.
  unfold last_with_id. induction l as [|x l IH] using rev_ind; [done|].
  rewrite put_all_snoc, rev_unit. simpl. unfold has_id at 1.
  case_bool_decide as Hx.
  - rewrite Hx. apply lookup_insert_eq.
  - rewrite lookup_insert_ne by done. exact IH.
Qed.

(** X21: when a bundle lists an id more than once, the last record with that
    id is the one kept.  After an overwrite that meets no fault, each store
    holds under an id the last record of the bundle's list that has this id,
    and nothing under an id the list does not have; whatever the stores held
    before is gone. *)
Theorem overwrite_keeps_last_duplicate
    (cats : list Category) (prods : list Product) (e : number)
    (sls : list SaleRecord) (w : World) (id : string) :
  let w' := exec (overwriteLocalData OwNone cats prods e sls) w in
  os_categories (idb w') !! id = last_with_id id cats /\
  os_products (idb w') !! id = last_with_id id prods /\
  os_sales (idb w') !! id = last_with_id id sls.
Proof.
  cbv zeta. unfold exec. rewrite overwriteLocalData_fault_free. simpl.
  rewrite !lookup_put_all, !lookup_empty.
  split_and!; by destruct (last_with_id id _).
Qed.

(** Agreement, in the terms the operations are followed with: the ids in the
    list are pairwise distinct and the store is the list written out. *)
Lemma mirrors_put_all {T} `{HasId T} (l : list T) (m : gmap string T) :
  mirrors l m <-> NoDup (getId <$> l) /\ m = put_all l ∅.
Proof.
  split.
  - intros [Hm Hl].
    assert (Hnd : NoDup (getId <$> l)).
    { rewrite Hl. by apply records_ids_unique. }
    split; [done|].
    rewrite <- (put_all_records m Hm) at 1.
    rewrite !put_all_list_to_map by (done || by apply records_ids_unique).
    apply list_to_map_proper.
    + rewrite <- list_fmap_compose. by apply records_ids_unique.
    + by rewrite Hl.
  - intros [Hnd ->]. split.
    + apply well_keyed_put_all, well_keyed_empty.
    + symmetry. by apply records_put_all.
Qed.

Lemma agree_ids_coherent (w : World) : agree w <-> ids_unique w /\ coherent w.
Proof.
  unfold agree, ids_unique, coherent. rewrite !mirrors_put_all.
  change (@getId Category _) with c_id. change (@getId Product _) with p_id.
  tauto.
Qed.

Lemma find_unique {T} `{HasId T} (l : list T) (x : T) :
  NoDup (getId <$> l) -> x ∈ l -> find (has_id (getId x)) l = Some x.
Proof.
  induction l as [|y l IH]; intros Hnd Hin; [by apply not_elem_of_nil in Hin|].
  rewrite fmap_cons in Hnd. apply NoDup_cons in Hnd as [Hy Hnd].
  simpl. unfold has_id at 1. case_bool_decide as Hid.
  - apply elem_of_cons in Hin as [-> | Hin]; [done|].
    exfalso. apply Hy. rewrite Hid. by apply list_elem_of_fmap_2.
  - apply elem_of_cons in Hin as [-> | Hin]; [done | by apply IH].
Qed.

Lemma mirrors_find {T} `{HasId T} (l : list T) (m : gmap string T) (id : string) :
  mirrors l m -> find (has_id id) l = m !! id.
Proof.
  intros Hmir. pose proof Hmir as [Hm Hl].
  apply mirrors_put_all in Hmir as [Hnd _].
  destruct (m !! id) as [x|] eqn:Hx.
  - rewrite <- (Hm id x Hx). apply find_unique; [done|].
    rewrite Hl. apply elem_of_records. by exists id.
  - destruct (find (has_id id) l) as [y|] eqn:Hf; [|done].
    apply find_has_id in Hf as [Hid Hin]. rewrite Hl in Hin.
    apply elem_of_records in Hin as (k & Hk).
    pose proof (Hm k y Hk). congruence.
Qed.

(** X22: memory and the stores agree on the categories and the products, and
    the operations that meet no fault keep it so.  Agreement is that the
    stores keep every record under the record's id and that memory lists the
    records of the stores, each once.  An addition or an edit, a deletion, a
    sale and a reset keep it; a load from stores that keep their records
    under their ids, and a restore from the cloud, establish it from any
    state; an import establishes it when the file lists each id once.  Under
    agreement a product lookup in memory gives what the products store holds
    under the id, and the lists have the sizes of the stores. *)
Theorem agreement_is_kept :
  (forall prod w, agree w -> agree (exec (handleAddProduct NoFault prod) w)) /\
  (forall cat w, agree w -> agree (exec (handleAddCategory NoFault cat) w)) /\
  (forall confirmed id w,
     agree w -> agree (exec (handleDeleteProduct confirmed NoFault id) w)) /\
  (forall c w, fault_free c -> agree w -> agree (recordSale c w)) /\
  (forall w, agree w -> agree (exec (resetEarnings true OwNone) w)) /\
  (forall w, stores_well_keyed (idb w) ->
     agree (exec (loadData NoFault NoFault NoFault) w)) /\
  (forall u cd w,
     cloud (ls w) !! cloudKey (email u) = Some cd ->
     agree (exec (handleLogin true OwNone NoFault NoFault NoFault u) w)) /\
  (forall data w,
     NoDup (c_id <$> default [] (i_categories data)) ->
     NoDup (p_id <$> default [] (i_products data)) ->
     agree (exec (handleImport true OwNone data) w)) /\
  (forall w, agree w ->
     (forall id, lookup_product id w = os_products (idb w) !! id) /\
     length (categories (mem w)) = size (os_categories (idb w)) /\
     length (products (mem w)) = size (os_products (idb w))).
Proof.
  split_and!.
  - intros prod w [[Hc Hp] Hco]%agree_ids_coherent. apply agree_ids_coherent. split.
    + split; simpl; [done | by apply (upsert_keeps_NoDup prod)].
    + by apply handleAddProduct_coherent.
  - intros cat w [[Hc Hp] Hco]%agree_ids_coherent. apply agree_ids_coherent. split.
    + split; simpl; [by apply (upsert_keeps_NoDup cat) | done].
    + by apply handleAddCategory_coherent.
  - intros confirmed id w [[Hc Hp] Hco]%agree_ids_coherent. apply agree_ids_coherent.
    split; [|by apply handleDeleteProduct_coherent].
    destruct confirmed; [|done].
    split; simpl; [done | by apply (filter_keeps_NoDup (T := Product))].
  - intros c w Hfree [Hids Hco]%agree_ids_coherent. apply agree_ids_coherent. split.
    + by apply recordSale_ids_unique.
    + by apply recordSale_coherent.
  - intros w [Hids Hco]%agree_ids_coherent. apply agree_ids_coherent. by split.
  - intros w (Hc & Hp & _). unfold exec. rewrite loadData_fault_free. by split.
  - intros u cd w Hcd. rewrite (handleLogin_reloads w u cd Hcd).
    split; (split; [apply well_keyed_put_all, well_keyed_empty | done]).
  - intros data w Hc Hp. apply agree_ids_coherent.
    rewrite handleImport_from_bundle. by split.
  - intros w [Hc Hp]. split_and!.
    + intros id. by apply mirrors_find.
    + destruct Hc as [_ ->]. unfold records. by rewrite length_fmap, length_map_to_list.
    + destruct Hp as [_ ->]. unfold records. by rewrite length_fmap, length_map_to_list.
Qed.

(** An import of a file that lists an id twice ends where memory and the
    stores do not agree. *)
Example import_of_doubled_file_disagrees :
  ~ agree (exec (handleImport true OwNone doubled) emptyWorld).
Proof.
  intros [_ [_ Hp]]. apply Permutation_length in Hp. vm_compute in Hp. discriminate.
Qed.

(** ** Prices and the inventory value *)

Lemma span_digits_are_digits (s : string) : Forall (fun c => is_digit c = true) (span_digits s).1.
Proof.
  induction s as [|c s IH]; simpl; [constructor|].
  destruct (is_digit c) eqn:Hc; [|constructor].
  destruct (span_digits s) as [ds r]. simpl in *. by constructor.
Qed.

Lemma digit_value_nonneg (c : ascii) : is_digit c = true -> 0 <= digit_value c.
Proof.
  unfold is_digit, digit_value. intros Hc.
  apply andb_prop in Hc as [Hlo _]. apply N.leb_le in Hlo. lia.
Qed.

Lemma digits_value_nonneg (ds : list ascii) :
  Forall (fun c => is_digit c = true) ds -> 0 <= digits_value ds.
Proof.
  unfold digits_value. intros Hds.
  assert (Hgen : forall acc, 0 <= acc ->
            0 <= fold_left (fun acc c => 10 * acc + digit_value c) ds acc).
  { induction Hds as [|c ds Hc Hds IH]; intros acc Hacc; simpl; [done|].
    apply IH. pose proof (digit_value_nonneg c Hc). lia. }
  by apply Hgen.
Qed.

Lemma Qc_of_Z_nonneg (z : Z) : 0 <= z -> (0 <= Qc_of_Z z)%Qc.
Proof. intros Hz. rewrite <- Z2Qc_inj_0. exact (proj1 (Z2Qc_inj_le 0 z) Hz). Qed.

Lemma Qcinv_nonneg (y : Qc) : (0 < y)%Qc -> (0 <= / y)%Qc.
Proof.
  intros Hy. apply (Qcmult_le_mono_pos_l _ _ y Hy).
  rewrite Qcmult_0_r, Qcmult_inv_r; [done|].
  intros ->. by apply Qclt_not_eq in Hy.
Qed.

Lemma parseFloat_nonneg (s : string) (x : Qc) : parseFloat s = Num x -> (0 <= x)%Qc.
Proof.
  unfold parseFloat.
  pose proof (span_digits_are_digits s) as Hip.
  destruct (span_digits s) as [ip rest]. simpl in Hip.
  assert (Hint : (0 <= Qc_of_Z (digits_value ip))%Qc)
    by (by apply Qc_of_Z_nonneg, digits_value_nonneg).
  destruct rest as [|c rest'].
  - destruct ip; [done|]. by intros [= <-].
  - destruct (is_dot c).
    + pose proof (span_digits_are_digits rest') as Hfp.
      destruct (span_digits rest') as [fp r]. simpl in Hfp.
      assert (Hfrac : (0 <= Qc_of_Z (digits_value ip)
                          + Qc_of_Z (digits_value fp)
                            / Qc_of_Z (10 ^ Z.of_nat (length fp)))%Qc).
      { apply Qcplus_nonneg_nonneg; [done|].
        apply Qcmult_nonneg_nonneg.
        - by apply Qc_of_Z_nonneg, digits_value_nonneg.
        - apply Qcinv_nonneg. rewrite <- Z2Qc_inj_0.
          apply (proj1 (Z2Qc_inj_lt 0 _)). apply Z.pow_pos_nonneg; lia. }
      destruct ip, fp; try done; by intros [= <-].
    + destruct ip; [done|]. by intros [= <-].
Qed.

Lemma inventory_sum_nonneg (prods : list Product) :
  quantities_nonneg prods -> (0 <= inventory_sum prods)%Qc.
Proof.
  induction 1 as [|p prods Hp Hprods IH]; simpl; [done|].
  apply Qcplus_nonneg_nonneg; [|done].
  apply Qcmult_nonneg_nonneg; [|by apply Qc_of_Z_nonneg].
  unfold parsed_retail_price. destruct (parseFloat (retail_text p)) as [|x] eqn:Hx; [done|].
  by apply parseFloat_nonneg in Hx.
Qed.

Lemma split_head_ignores_rest (sep : ascii) (r rest : string) :
  split_head sep (r ++ String sep rest) = split_head sep r.
Proof.
  induction r as [|c r IH]; simpl.
  - by rewrite Ascii.eqb_refl.
  - destruct (Ascii.eqb c sep); [done | by rewrite IH].
Qed.

(** X23: the inventory value is never negative when no quantity is: every
    parsed price is at least 0, a sign in the price text being dropped with
    the other characters that are neither digits nor dots. *)
Theorem inventory_value_nonneg (prods : list Product) :
  quantities_nonneg prods ->
  exists v : Qc, totalInventoryValue prods = Num v /\ (0 <= v)%Qc.
Proof.
  intros Hq. exists (inventory_sum prods).
  split; [apply inventory_value_eq_sum | by apply inventory_sum_nonneg].
Qed.

Lemma inventory_value_nonneg_witness :
  exists v : Qc,
    totalInventoryValue [mkProduct "p5" "Nail" "-12.5/9" 4 "c1" "" ""] = Num v /\ (0 <= v)%Qc.
Proof.
  apply inventory_value_nonneg. repeat constructor. simpl. lia.
Defined.

(** X24: whatever follows a ['/'] in a price (the wholesale price) has no
    effect on the inventory value: a product whose price text is extended by
    a ['/'] and any text counts as before. *)
Theorem inventory_value_ignores_wholesale
    (before after : list Product) (p p' : Product) (wholesale : string) :
  price p' = price p ++ String "/" wholesale ->
  quantity p' = quantity p ->
  totalInventoryValue (before ++ p' :: after) =
  totalInventoryValue (before ++ p :: after).
Proof.
  intros Hprice Hq.
  rewrite !inventory_value_eq_sum, !inventory_sum_app. simpl.
  unfold parsed_retail_price, retail_text.
  by rewrite Hprice, split_head_ignores_rest, Hq.
Qed.

Lemma inventory_value_ignores_wholesale_witness :
  totalInventoryValue [widget] =
  totalInventoryValue [mkProduct "p1" "Widget" "100" 5 "c1" "111" ""].
Proof.
  exact (inventory_value_ignores_wholesale [] []
           (mkProduct "p1" "Widget" "100" 5 "c1" "111" "") widget "80" eq_refl eq_refl).
Defined.

Lemma span_digits_of_uint (d : Decimal.uint) :
  exists ds : list ascii,
    span_digits (NilEmpty.string_of_uint d) = (ds, EmptyString) /\
    (forall acc : positive,
       fold_left (fun acc c => 10 * acc + digit_value c) ds (Z.pos acc) =
       Z.pos (Pos.of_uint_acc d acc)) /\
    fold_left (fun acc c => 10 * acc + digit_value c) ds 0 = Z.of_N (Pos.of_uint d) /\
    (d ≠ Decimal.Nil -> ds ≠ []).
Proof.
  induction d as [|d IH|d IH|d IH|d IH|d IH|d IH|d IH|d IH|d IH|d IH];
    [by exists [] | ..];
    destruct IH as (ds & Hspan & Hacc & Hzero & _);
    eexists; simpl; rewrite Hspan; (split; [reflexivity|]);
    (split; [intros acc; simpl;
             match goal with
             | |- fold_left _ _ ?a = Z.pos (Pos.of_uint_acc _ ?b) =>
                 replace a with (Z.pos b) by (unfold digit_value; simpl; lia)
             end; apply Hacc|]);
    (split; [simpl; first [exact Hzero | apply Hacc] | done]).
Qed.

(** X25: [parseFloat] reads back what [toString] writes for an integer that is
    not negative; so the id of a sale parses to the clock reading it was made
    from, and a whole amount written to the earnings slot is read back as
    written. *)
Theorem parseFloat_toString (z : Z) :
  0 <= z -> parseFloat (toString z) = of_int z.
Proof.
  intros Hz. destruct z as [|p|p]; [reflexivity | | lia].
  unfold toString, of_int. simpl.
  destruct (span_digits_of_uint (Pos.to_uint p)) as (ds & Hspan & _ & Hval & Hne).
  assert (Hnil : Pos.to_uint p ≠ Decimal.Nil) by apply Unsigned.to_uint_nonnil.
  unfold NilZero.string_of_uint.
  assert (Hstr : match Pos.to_uint p with
                 | Decimal.Nil => "0"
                 | _ => NilEmpty.string_of_uint (Pos.to_uint p)
                 end = NilEmpty.string_of_uint (Pos.to_uint p))
    by (by destruct (Pos.to_uint p)).
  rewrite Hstr. unfold parseFloat. rewrite Hspan.
  specialize (Hne Hnil). destruct ds as [|c ds]; [done|].
  f_equal. f_equal. unfold digits_value. rewrite Hval.
  by rewrite Unsigned.of_to.
Qed.

Lemma parseFloat_toString_witness : parseFloat (toString 1700000000123) = of_int 1700000000123.
Proof. apply parseFloat_toString. lia. Defined.

(** ** The automatic sync *)

(** X26: the automatic sync is guarded.  It does nothing unless a user is
    signed in, no load is running and a load has succeeded; when it does run
    it does what a manual sync does.  In particular, after a start whose load
    was rejected by one of the stores it pushes nothing, so the snapshots are
    as they were. *)
Theorem autoSync_guarded (now : Z) :
  (forall w : World,
     user (mem w) = None \/ isLoading (mem w) = true \/
     dataLoadedSuccessfully (mem w) = false ->
     autoSync now w = (Resolved tt, w)) /\
  (forall w : World,
     isLoading (mem w) = false -> dataLoadedSuccessfully (mem w) = true ->
     autoSync now w = handleManualSync now w) /\
  (forall (fc fp fs : fault) (n : Nav) (st : option SavedState) (w : World),
     fc = TxFault \/ fp = TxFault \/ fs = TxFault ->
     let started := world (init fc fp fs (mkApp (restart w) n st)) in
     exec (autoSync now) started = started /\ cloud (ls started) = cloud (ls w)).
Proof.
  split_and!.
  - intros w Hguard. unfold autoSync. run.
    destruct (user (mem w)) as [u|]; [|done].
    destruct Hguard as [Hu | [-> | ->]]; [done | done |].
    by rewrite andb_false_r.
  - intros w Hl Hd. unfold autoSync, handleManualSync. run.
    rewrite Hl, Hd. simpl. by destruct (user (mem w)).
  - intros fc fp fs n st w Htx. cbv zeta.
    assert (Hstart : forall a : App, world (init fc fp fs a) =
              match getUser (ls (exec (loadData fc fp fs) (world a))) with
              | Some savedUser =>
                  exec (set_mem (setUser (Some savedUser))) (exec (loadData fc fp fs) (world a))
              | None => exec (loadData fc fp fs) (world a)
              end).
    { intros a. unfold init.
      destruct (getAppState a) as [[[v|] ? ?]|]; reflexivity. }
    rewrite Hstart.
    destruct (loadData_cases fc fp fs (restart w)) as ((_ & _ & _ & Hls & _) & Hrej & _).
    destruct (Hrej Htx) as (_ & _ & _ & _ & Hflag).
    change (world (mkApp (restart w) n st)) with (restart w).
    change (ls (restart w)) with (ls w) in Hls.
    change (dataLoadedSuccessfully (mem (restart w))) with false in Hflag.
    set (w1 := exec (loadData fc fp fs) (restart w)) in *. clearbody w1.
    rewrite Hls. unfold getUser.
    destruct (USER (ls w)) as [u|]; unfold autoSync; run.
    + rewrite Hflag, andb_false_r. simpl. by rewrite Hls.
    + destruct (user (mem w1)) as [u|]; [|by rewrite Hls].
      rewrite Hflag, andb_false_r. simpl. by rewrite Hls.
Qed.

(** X27: a start that cannot open the stores does not count as a failed
    load: each [getAll] yields the empty list, the loaded flag is set, and
    with a saved user the automatic sync then replaces that user's snapshot
    by one with no categories, no products and no sales, keeping only the
    earnings of the scalar store. *)
Theorem autoSync_after_unopened_stores
    (now : Z) (n : Nav) (st : option SavedState) (w : World) (u : User) :
  USER (ls w) = Some u ->
  let started := world (init OpenFault OpenFault OpenFault (mkApp (restart w) n st)) in
  dataLoadedSuccessfully (mem started) = true /\
  result (fetchFromCloud (email u)) (exec (autoSync now) started) =
    Resolved (Some (mkSnapshot [] [] (Some []) (to_json (getEarnings (ls w))) now)).
Proof.
  intros Hu. cbv zeta. unfold init, getUser, getAppState. simpl. rewrite Hu.
  destruct st as [[[v|] ? ?]|]; simpl;
    (split; [reflexivity|]);
    unfold autoSync, fetchFromCloud, syncToCloud, payload; run;
    rewrite lookup_insert_eq, loaded_earnings; reflexivity.
Qed.

(** ** The product list on screen *)

Lemma prefix_spec (needle hay : string) :
  String.prefix needle hay = true <-> exists post, hay = needle ++ post.
Proof.
  revert hay. induction needle as [|a needle IH]; intros hay.
  - split; [by exists hay | by destruct hay].
  - destruct hay as [|b hay]; simpl.
    + split; [done | intros (post & Hpost); discriminate].
    + destruct (ascii_dec a b) as [->|Hne].
      * rewrite IH. split.
        -- intros (post & ->). by exists post.
        -- intros (post & Hpost). exists post. by injection Hpost.
      * split; [done | intros (post & Hpost); injection Hpost; congruence].
Qed.

Lemma includes_spec (hay needle : string) :
  includes hay needle = true <-> occurs_in needle hay.
Proof.
  unfold occurs_in. induction hay as [|c hay IH].
  - change (includes "" needle) with (String.prefix needle "" || false).
    rewrite orb_false_r, prefix_spec. split.
    + intros (post & Hpost). by exists "", post.
    + intros (pre & post & Hpost). destruct pre as [|c' pre]; [by exists post|].
      discriminate.
  - change (includes (String c hay) needle)
      with (String.prefix needle (String c hay) || includes hay needle).
    rewrite orb_true_iff, IH, prefix_spec. split.
    + intros [(post & Hpost) | (pre & post & ->)].
      * by exists "", post.
      * by exists (String c pre), post.
    + intros (pre & post & Hpost). destruct pre as [|c' pre].
      * left. by exists post.
      * right. exists pre, post. simpl in Hpost. by injection Hpost.
Qed.

Lemma text_or_null_Some (s : option string) (x : string) :
  text_or_null s = Some x <-> s = Some x /\ x ≠ "".
Proof.
  destruct s as [[|c s]|]; simpl; split; try done.
  - by intros [[= <-] Hne].
  - intros [= <-]. done.
  - by intros [Heq _].
  - by intros [Heq _].
Qed.

Section FilteredProductsFacts.
Variable localeCompare : string -> string -> Z.

Lemma insert_sorted_perm (cmp : Product -> Product -> Z) (x : Product) (l : list Product) :
  insert_sorted cmp x l ≡ₚ x :: l.
Proof.
  induction l as [|y l IH]; [done|]. simpl. case_bool_decide; [done|].
  rewrite IH. apply perm_swap.
Qed.

Lemma sort_products_perm (cmp : Product -> Product -> Z) (l : list Product) :
  sort_products cmp l ≡ₚ l.
Proof.
  induction l as [|x l IH]; [done|]. simpl.
  by rewrite insert_sorted_perm, IH.
Qed.

Lemma matches_spec (query : string) (p : Product) :
  matches query p = true <->
  occurs_in query (toLowerCase (p_name p)) \/ occurs_in query (toLowerCase (barcode p)).
Proof. unfold matches. by rewrite orb_true_iff, !includes_spec. Qed.

Lemma filteredProducts_elem (prods : list Product) (n : Nav) (order : SortOrder)
    (p : Product) :
  p ∈ filteredProducts localeCompare prods n order <-> p ∈ prods /\ shown n p.
Proof.
  unfold filteredProducts, shown. rewrite sort_products_perm.
  assert (Hcat : forall l : list Product,
            p ∈ match view n, text_or_null (selectedCategoryId n) with
                | CATEGORY_DETAIL, Some selected => List.filter (in_category selected) l
                | _, _ => l
                end <->
            p ∈ l /\ (view n = CATEGORY_DETAIL ->
                      forall selected, selectedCategoryId n = Some selected ->
                                       selected ≠ "" -> categoryId p = selected)).
  { intros l.
    destruct (view n) eqn:Hv;
      destruct (text_or_null (selectedCategoryId n)) as [selected|] eqn:Hsel;
      try (split; [intros Hin; split; [done | intros Hv'; discriminate]
                  | by intros [Hin _]]).
    - apply text_or_null_Some in Hsel as [Hsel Hne].
      rewrite !list_elem_of_In, filter_In. unfold in_category.
      rewrite bool_decide_eq_true. split.
      + intros [Hin Hc]. split; [done|]. intros _ s Hs _. congruence.
      + intros [Hin Hc]. split; [done|]. by apply Hc.
    - split; [|by intros [Hin _]]. intros Hin. split; [done|].
      intros _ selected Hs Hne.
      assert (Hsome : text_or_null (selectedCategoryId n) = Some selected)
        by (by apply text_or_null_Some).
      congruence. }
  destruct (searchQuery n) as [|c q] eqn:Hq.
  - rewrite Hcat. split.
    + intros [Hin Hc]. split; [done|]. split; [done | intros Hne; done].
    + intros [Hin [Hc _]]. done.
  - rewrite list_elem_of_In, filter_In, <- list_elem_of_In, Hcat, matches_spec.
    split.
    + intros [[Hin Hc] Hm]. split; [done|]. split; [done | by intros _].
    + intros [Hin [Hc Hm]]. split; [done|]. by apply Hm.
Qed.
End FilteredProductsFacts.

(** X28: the list on screen holds exactly the products that pass the filters,
    each as often as in the product list, whatever the collation and the sort
    order.  A product passes when, in the category view with a non-empty
    selected id, it is of that category, and when, with a non-empty search
    text, its name or its barcode, lower-cased, contains the lower-cased
    search text.  Two search texts that agree once lower-cased give the same
    list. *)
Theorem filteredProducts_shows_matches (localeCompare : string -> string -> Z)
    (prods : list Product) (n : Nav) (order : SortOrder) :
  (forall p, p ∈ filteredProducts localeCompare prods n order <-> p ∈ prods /\ shown n p) /\
  (view n ≠ CATEGORY_DETAIL -> searchQuery n = "" ->
   filteredProducts localeCompare prods n order ≡ₚ prods) /\
  (forall q1 q2 : string,
     q1 ≠ "" -> q2 ≠ "" -> toLowerCase q1 = toLowerCase q2 ->
     filteredProducts localeCompare prods (mkNav (view n) (selectedCategoryId n) q1) order =
     filteredProducts localeCompare prods (mkNav (view n) (selectedCategoryId n) q2) order).
Proof.
  split_and!.
  - intros p. apply filteredProducts_elem.
  - intros Hv Hq. unfold filteredProducts. rewrite sort_products_perm, Hq.
    by destruct (view n), (text_or_null (selectedCategoryId n)).
  - intros q1 q2 H1 H2 Hlow. unfold filteredProducts. simpl.
    destruct q1 as [|c1 q1]; [done|]. destruct q2 as [|c2 q2]; [done|].
    by rewrite Hlow.
Qed.

(** ** The schema upgrade *)

(** X29: the upgrade of the database only adds.  Every store that exists is
    kept with what it holds, the three stores of the application exist
    afterwards, no other name is created, and running the upgrade again
    changes nothing. *)
Theorem onupgradeneeded_additive {S : Type} (empty_store : S) (stores : gmap string S) :
  let upgraded := onupgradeneeded empty_store stores in
  (forall name s, stores !! name = Some s -> upgraded !! name = Some s) /\
  (is_Some (upgraded !! "categories") /\ is_Some (upgraded !! "products") /\
   is_Some (upgraded !! "sales")) /\
  (forall name, name ≠ "categories" -> name ≠ "products" -> name ≠ "sales" ->
                upgraded !! name = stores !! name) /\
  onupgradeneeded empty_store upgraded = upgraded.
Proof.
  assert (Hkeep : forall name (m : gmap string S) k s,
            m !! k = Some s -> create_if_missing empty_store name m !! k = Some s).
  { intros name m k s Hk. unfold create_if_missing.
    destruct (m !! name) eqn:Hn; [done|].
    rewrite lookup_insert_ne; [done | congruence]. }
  assert (Hthere : forall name (m : gmap string S),
            is_Some (create_if_missing empty_store name m !! name)).
  { intros name m. unfold create_if_missing.
    destruct (m !! name) eqn:Hn; [by rewrite Hn | by rewrite lookup_insert_eq]. }
  assert (Hother : forall name (m : gmap string S) k,
            k ≠ name -> create_if_missing empty_store name m !! k = m !! k).
  { intros name m k Hne. unfold create_if_missing.
    destruct (m !! name); [done | by rewrite lookup_insert_ne]. }
  assert (Hdone : forall name (m : gmap string S),
            is_Some (m !! name) -> create_if_missing empty_store name m = m).
  { intros name m [s Hs]. unfold create_if_missing. by rewrite Hs. }
  cbv zeta. unfold onupgradeneeded. split_and!.
  - intros name s Hs. by do 3 apply Hkeep.
  - destruct (Hthere "categories" stores) as [s Hs].
    exists s. by do 2 apply Hkeep.
  - destruct (Hthere "products" (create_if_missing empty_store "categories" stores)) as [s Hs].
    exists s. by apply Hkeep.
  - apply Hthere.
  - intros name Hc Hp Hs. by rewrite !Hother.
  - set (m1 := create_if_missing empty_store "categories" stores).
    set (m2 := create_if_missing empty_store "products" m1).
    set (m3 := create_if_missing empty_store "sales" m2).
    assert (H1 : is_Some (m3 !! "categories")).
    { destruct (Hthere "categories" stores) as [s Hs]. exists s. by do 2 apply Hkeep. }
    assert (H2 : is_Some (m3 !! "products")).
    { destruct (Hthere "products" m1) as [s Hs]. exists s. by apply Hkeep. }
    assert (H3 : is_Some (m3 !! "sales")) by apply Hthere.
    by rewrite (Hdone "categories" m3 H1), (Hdone "products" m3 H2),
      (Hdone "sales" m3 H3).
Qed.

Lemma onupgradeneeded_additive_witness :
  onupgradeneeded (∅ : gmap string Product) {[ "products" := {[ "p1" := widget ]} ]}
    !! "products" = Some {[ "p1" := widget ]}.
Proof.
  destruct (onupgradeneeded_additive (∅ : gmap string Product)
              {[ "products" := {[ "p1" := widget ]} ]}) as (Hkeep & _).
  apply Hkeep. reflexivity.
Defined.

End Platform.

(** * The statements that involve lower-casing, on sample inputs

    The samples are texts of ASCII characters, on which [toLowerCase] is
    [ascii_toLowerCase]. *)

Lemma push_then_pull_witness :
  let pushed := exec (handleManualSync ascii_toLowerCase 5000) (signed_in shop) in
  let bundle := mkSnapshot [] [widget] (Some []) (JNum 0) 5000 in
  cloud (ls pushed) !! "GLOBAL_CLOUD_DB_shop@mail.com" = Some bundle /\
  result (fetchFromCloud ascii_toLowerCase "shop@MAIL.com") pushed = Resolved (Some bundle) /\
  result (fetchFromCloud ascii_toLowerCase "shop@mail.org") pushed = Resolved None.
Proof.
  intros pushed bundle.
  destruct (push_then_pull ascii_toLowerCase (signed_in shop) 5000 owner 0%Qc
              "shop@MAIL.com" eq_refl eq_refl) as (Hmap & _ & Hsame & _).
  destruct (push_then_pull ascii_toLowerCase (signed_in shop) 5000 owner 0%Qc
              "shop@mail.org" eq_refl eq_refl) as (_ & _ & _ & Hother).
  split_and!.
  - unfold pushed. rewrite Hmap.
    exact (lookup_insert_eq (cloud (ls (signed_in shop)))
             "GLOBAL_CLOUD_DB_shop@mail.com" bundle).
  - apply Hsame. reflexivity.
  - unfold pushed. rewrite Hother; [reflexivity | discriminate].
Defined.

Lemma snapshots_are_per_identity_witness :
  result (fetchFromCloud ascii_toLowerCase "other@mail.com")
         (exec (syncToCloud ascii_toLowerCase 1 "Shop@Mail.com" empty_push)
               (backup_in_cloud ascii_toLowerCase)) =
  result (fetchFromCloud ascii_toLowerCase "other@mail.com")
         (backup_in_cloud ascii_toLowerCase) /\
  result (fetchFromCloud ascii_toLowerCase "SHOP@mail.com")
         (exec (syncToCloud ascii_toLowerCase 2 "shop@MAIL.com" empty_push)
               (exec (syncToCloud ascii_toLowerCase 1 "SHOP@mail.com" empty_push)
                     emptyWorld)) =
  Resolved (Some (payload empty_push 2)).
Proof.
  destruct (snapshots_are_per_identity ascii_toLowerCase) as (_ & Hother & Hlast).
  split.
  - apply Hother. simpl. discriminate.
  - apply Hlast. reflexivity.
Defined.

Lemma handleManualSync_frame_witness :
  cloud (ls (exec (handleManualSync ascii_toLowerCase 9)
                  (signed_in (backup_in_cloud ascii_toLowerCase))))
    !! "GLOBAL_CLOUD_DB_x" =
  cloud (ls (signed_in (backup_in_cloud ascii_toLowerCase))) !! "GLOBAL_CLOUD_DB_x".
Proof.
  destruct (handleManualSync_frame ascii_toLowerCase 9
              (signed_in (backup_in_cloud ascii_toLowerCase)))
    as (_ & _ & _ & _ & Hk & _).
  apply (Hk owner); [reflexivity | discriminate].
Defined.

Lemma handleLogin_without_restore_witness :
  handleLogin ascii_toLowerCase false OwNone NoFault NoFault NoFault owner
      (backup_in_cloud ascii_toLowerCase) =
    (Resolved tt,
     mkWorld (setUser (Some owner) (mem (backup_in_cloud ascii_toLowerCase)))
             (idb (backup_in_cloud ascii_toLowerCase))
             (saveUser owner (ls (backup_in_cloud ascii_toLowerCase)))).
Proof. apply handleLogin_without_restore. by right. Defined.

Lemma stores_stay_well_keyed_witness :
  stores_well_keyed (idb (recordSale (sale 1000 "p1" 2 100) shop)).
Proof.
  destruct (stores_stay_well_keyed ascii_toLowerCase shop shop_well_keyed)
    as (_ & _ & _ & Hsale & _).
  apply Hsale.
Defined.

Lemma agreement_is_kept_witness :
  agree (recordSale (sale 2000 "p1" 1 100)
           (exec (handleDeleteProduct true NoFault "p7")
              (exec (handleImport true OwNone backup) emptyWorld))) /\
  lookup_product "p1" (exec (handleImport true OwNone backup) emptyWorld) = Some widget.
Proof.
  destruct (agreement_is_kept ascii_toLowerCase)
    as (_ & _ & Hdel & Hsale & _ & _ & _ & Himp & Hgives).
  assert (Hstart : agree (exec (handleImport true OwNone backup) emptyWorld)).
  { apply Himp; simpl; apply NoDup_singleton. }
  split.
  - apply Hsale; [by split|]. apply Hdel, Hstart.
  - destruct (Hgives _ Hstart) as (Hlook & _). rewrite Hlook. reflexivity.
Defined.

Lemma autoSync_guarded_witness :
  autoSync ascii_toLowerCase 7 shop = (Resolved tt, shop) /\
  cloud (ls (world (init NoFault TxFault NoFault
                      (mkApp (restart (backup_in_cloud ascii_toLowerCase))
                             (mkNav HOME None "") None)))) =
  cloud (ls (backup_in_cloud ascii_toLowerCase)).
Proof.
  destruct (autoSync_guarded ascii_toLowerCase 7) as (Hoff & _ & Hrej).
  split; [apply Hoff; by left|].
  destruct (Hrej NoFault TxFault NoFault (mkNav HOME None "") None
              (backup_in_cloud ascii_toLowerCase))
    as [_ Hcloud]; [by right; left | exact Hcloud].
Defined.

Lemma autoSync_after_unopened_stores_witness :
  let w := exec (handleLogin ascii_toLowerCase false OwNone NoFault NoFault NoFault owner)
                (backup_in_cloud ascii_toLowerCase) in
  let started := world (init OpenFault OpenFault OpenFault
                          (mkApp (restart w) (mkNav HOME None "") None)) in
  result (fetchFromCloud ascii_toLowerCase (email owner))
         (exec (autoSync ascii_toLowerCase 9) started) =
    Resolved (Some (mkSnapshot [] [] (Some []) (JNum 0) 9)).
Proof.
  intros w started.
  exact (proj2 (autoSync_after_unopened_stores ascii_toLowerCase 9 (mkNav HOME None "")
                  None w owner eq_refl)).
Defined.

Lemma filteredProducts_shows_matches_witness :
  filteredProducts ascii_toLowerCase (fun _ _ => 0) [widget] (mkNav SEARCH None "WIDG") ASC =
  filteredProducts ascii_toLowerCase (fun _ _ => 0) [widget] (mkNav SEARCH None "widg") ASC /\
  filteredProducts ascii_toLowerCase (fun _ _ => 0) [widget] (mkNav SEARCH None "WIDG") ASC =
  [widget].
Proof.
  destruct (filteredProducts_shows_matches ascii_toLowerCase (fun _ _ => 0) [widget]
              (mkNav SEARCH None "") ASC)
    as (_ & _ & Hcase).
  split; [|reflexivity].
  apply (Hcase "WIDG" "widg"); [discriminate | discriminate | reflexivity].
Defined.
